(** * useSoundEffect: the timed playback controller

    A shallow embedding of [packages/useSoundEffect/src/index.ts].

    The hook keeps its mutable cells in React refs ([audioRef],
    [intervalRef], [fadeIntervalRef], [isMountedRef]) and two pieces of
    React state ([isPlaying], [currentVolume]).  Every callback of the hook
    becomes a function on a [World] that holds those cells together with
    the part of the host the callbacks act on: the audio elements created
    so far, the table of timers that are still armed, and a chronological
    trace of the host calls that were made.

    Numbers.  JavaScript numbers are modelled as exact rationals [Q]:
    [Math.min]/[Math.max] are [Qmin]/[Qmax], the comparisons are the
    rational ones.  Rounding of IEEE doubles and NaN are outside the model.

    Closures.  The two closures the hook hands to the host are
    defunctionalised: the interval callback of [applyFade] is the record
    [FadeTimer] (its captured variables) interpreted by [fadeTick], and the
    optional [onComplete] argument is the enumeration [FadeCallback]. *)

From Stdlib Require Import QArith Qround Qminmax Lia.
From stdpp Require Import base option list gmap strings.

(** ** Host objects *)

(** Handles are plain numbers. *)
Abbreviation AudioId := nat (only parsing).
Abbreviation TimerId := nat (only parsing).

(** The fields of an [HTMLAudioElement] the hook reads or writes.
    [el_listeners] records that [playSoundEffect] attached its three
    listeners ('timeupdate', 'ended', 'error') to the element. *)
Record HTMLAudioElement := mkAudio {
  el_src : string;
  el_currentTime : Q;
  el_loop : bool;
  el_volume : Q;
  el_paused : bool;
  el_preloadAuto : bool;
  el_listeners : bool
}.

(** [new Audio(url)] : paused, at position 0, full volume. *)
Definition newElement (url : string) : HTMLAudioElement :=
  mkAudio url 0%Q false 1%Q true false false.

(** The optional [onComplete] argument of [applyFade].  The only closure
    ever passed is [() => { audio.pause(); cleanup(); }]. *)
Inductive FadeCallback := NoCallback | PauseAndCleanup.

(** Variables captured by the interval callback of [applyFade]. *)
Record FadeTimer := mkFade {
  fade_audio : AudioId;
  fade_startVolume : Q;
  fade_volumeStep : Q;
  fade_targetVolume : Q;
  fade_currentStep : nat;
  fade_onComplete : FadeCallback
}.

Inductive Timer :=
| FadeInterval (f : FadeTimer)   (* armed by setInterval in applyFade *)
| RandomTimeout (delay : Q).     (* armed by setTimeout in scheduleNextPlay *)

(** Who performed a volume write (kept in the trace only). *)
Inductive Writer := ByPlay | ByFade | ByAdjust | ByPreload.

(** Host calls and callback invocations, in the order they happen. *)
Inductive HostCall :=
| NewAudio (a : AudioId)
| Pause (a : AudioId)
| Play (a : AudioId)
| SetVolume (by_ : Writer) (a : AudioId) (v : Q)
| SetInterval (t : TimerId) (ms : Q)
| ClearInterval (t : TimerId)
| SetTimeout (t : TimerId) (ms : Q)
| ClearTimeout (t : TimerId)
| ConsoleError
| OnComplete (a : AudioId).

(** ** The world *)

Record World := mkWorld {
  audios : list HTMLAudioElement;        (* element [a] is [audios !! a] *)
  timers : gmap nat Timer;               (* timers still armed *)
  nextTimer : nat;                       (* next handle setTimeout/setInterval returns *)
  audioRef : option AudioId;
  intervalRef : option TimerId;
  fadeIntervalRef : option TimerId;
  isMountedRef : bool;
  isPlaying : bool;
  currentVolume : Q;
  trace : list HostCall
}.

Definition set_audios (x : list HTMLAudioElement) (w : World) : World :=
  mkWorld x (timers w) (nextTimer w) (audioRef w) (intervalRef w)
          (fadeIntervalRef w) (isMountedRef w) (isPlaying w) (currentVolume w) (trace w).
Definition set_timers (x : gmap nat Timer) (w : World) : World :=
  mkWorld (audios w) x (nextTimer w) (audioRef w) (intervalRef w)
          (fadeIntervalRef w) (isMountedRef w) (isPlaying w) (currentVolume w) (trace w).
Definition set_nextTimer (x : nat) (w : World) : World :=
  mkWorld (audios w) (timers w) x (audioRef w) (intervalRef w)
          (fadeIntervalRef w) (isMountedRef w) (isPlaying w) (currentVolume w) (trace w).
Definition set_audioRef (x : option AudioId) (w : World) : World :=
  mkWorld (audios w) (timers w) (nextTimer w) x (intervalRef w)
          (fadeIntervalRef w) (isMountedRef w) (isPlaying w) (currentVolume w) (trace w).
Definition set_intervalRef (x : option TimerId) (w : World) : World :=
  mkWorld (audios w) (timers w) (nextTimer w) (audioRef w) x
          (fadeIntervalRef w) (isMountedRef w) (isPlaying w) (currentVolume w) (trace w).
Definition set_fadeIntervalRef (x : option TimerId) (w : World) : World :=
  mkWorld (audios w) (timers w) (nextTimer w) (audioRef w) (intervalRef w)
          x (isMountedRef w) (isPlaying w) (currentVolume w) (trace w).
Definition set_isMountedRef (x : bool) (w : World) : World :=
  mkWorld (audios w) (timers w) (nextTimer w) (audioRef w) (intervalRef w)
          (fadeIntervalRef w) x (isPlaying w) (currentVolume w) (trace w).
Definition setIsPlaying (x : bool) (w : World) : World :=
  mkWorld (audios w) (timers w) (nextTimer w) (audioRef w) (intervalRef w)
          (fadeIntervalRef w) (isMountedRef w) x (currentVolume w) (trace w).
Definition setCurrentVolume (x : Q) (w : World) : World :=
  mkWorld (audios w) (timers w) (nextTimer w) (audioRef w) (intervalRef w)
          (fadeIntervalRef w) (isMountedRef w) (isPlaying w) x (trace w).
Definition log (c : HostCall) (w : World) : World :=
  mkWorld (audios w) (timers w) (nextTimer w) (audioRef w) (intervalRef w)
          (fadeIntervalRef w) (isMountedRef w) (isPlaying w) (currentVolume w)
          (trace w ++ [c]).

(** ** Host primitives *)

(** Update one element in place; an unknown handle is left alone. *)
Definition updElement (a : AudioId) (f : HTMLAudioElement -> HTMLAudioElement)
    (w : World) : World :=
  match audios w !! a with
  | Some el => set_audios (<[a := f el]> (audios w)) w
  | None => w
  end.

Definition el_set_paused (b : bool) (el : HTMLAudioElement) : HTMLAudioElement :=
  mkAudio (el_src el) (el_currentTime el) (el_loop el) (el_volume el) b
          (el_preloadAuto el) (el_listeners el).
Definition el_set_volume (v : Q) (el : HTMLAudioElement) : HTMLAudioElement :=
  mkAudio (el_src el) (el_currentTime el) (el_loop el) v (el_paused el)
          (el_preloadAuto el) (el_listeners el).
Definition el_set_currentTime (t : Q) (el : HTMLAudioElement) : HTMLAudioElement :=
  mkAudio (el_src el) t (el_loop el) (el_volume el) (el_paused el)
          (el_preloadAuto el) (el_listeners el).
Definition el_set_loop (b : bool) (el : HTMLAudioElement) : HTMLAudioElement :=
  mkAudio (el_src el) (el_currentTime el) b (el_volume el) (el_paused el)
          (el_preloadAuto el) (el_listeners el).
Definition el_set_preloadAuto (el : HTMLAudioElement) : HTMLAudioElement :=
  mkAudio (el_src el) (el_currentTime el) (el_loop el) (el_volume el) (el_paused el)
          true (el_listeners el).
Definition el_set_listeners (el : HTMLAudioElement) : HTMLAudioElement :=
  mkAudio (el_src el) (el_currentTime el) (el_loop el) (el_volume el) (el_paused el)
          (el_preloadAuto el) true.

(** [audio.pause()] *)
Definition pause (a : AudioId) (w : World) : World :=
  log (Pause a) (updElement a (el_set_paused true) w).

(** [audio.play()] as far as it is synchronous: the element stops being
    paused; the promise settles later (see [handlePlayRejected]). *)
Definition hostPlay (a : AudioId) (w : World) : World :=
  log (Play a) (updElement a (el_set_paused false) w).

(** [audio.volume = v] *)
Definition setVolume (by_ : Writer) (a : AudioId) (v : Q) (w : World) : World :=
  log (SetVolume by_ a v) (updElement a (el_set_volume v) w).

(** [audio.volume] *)
Definition getVolume (a : AudioId) (w : World) : Q :=
  match audios w !! a with Some el => el_volume el | None => 0%Q end.

(** [audio.currentTime] *)
Definition getCurrentTime (a : AudioId) (w : World) : Q :=
  match audios w !! a with Some el => el_currentTime el | None => 0%Q end.

(** [new Audio(url)]: the new element's handle is its index. *)
Definition newAudio (url : string) (w : World) : AudioId * World :=
  let a := length (audios w) in
  (a, log (NewAudio a) (set_audios (audios w ++ [newElement url]) w)).

(** [clearTimeout(t)] / [clearInterval(t)]: disarm; a handle that already
    fired or was cleared is ignored. *)
Definition clearTimeout (t : TimerId) (w : World) : World :=
  log (ClearTimeout t) (set_timers (delete t (timers w)) w).
Definition clearInterval (t : TimerId) (w : World) : World :=
  log (ClearInterval t) (set_timers (delete t (timers w)) w).

(** Arm a timer and return its handle.  Handles start at 1, so a handle is
    always truthy and [if (ref.current)] is the test [ref = Some _]. *)
Definition armTimer (tm : Timer) (w : World) : TimerId * World :=
  let t := nextTimer w in
  (t, set_nextTimer (S t) (set_timers (<[t := tm]> (timers w)) w)).

(** [Math.min(1, Math.max(0, v))] *)
Definition clamp01 (v : Q) : Q := Qmin 1%Q (Qmax 0%Q v).

(** ** cleanup (index.ts 282-296) and stopSoundEffect (304-306) *)

Definition cleanup (w : World) : World :=
  let w1 := match audioRef w with
            | Some a => set_audioRef None (pause a w)
            | None => w
            end in
  let w2 := match intervalRef w1 with
            | Some t => set_intervalRef None (clearTimeout t w1)
            | None => w1
            end in
  let w3 := match fadeIntervalRef w2 with
            | Some t => set_fadeIntervalRef None (clearInterval t w2)
            | None => w2
            end in
  setIsPlaying false w3.

Definition stopSoundEffect (w : World) : World := cleanup w.

(** ** applyFade (index.ts 319-354) *)

Definition steps : nat := 50.

(** [onComplete?.()] for a fade on [audio]. *)
Definition invokeOnComplete (cb : FadeCallback) (audio : AudioId) (w : World) : World :=
  match cb with
  | NoCallback => w
  | PauseAndCleanup => cleanup (pause audio (log (OnComplete audio) w))
  end.

(** [stepDuration] of a fade of [duration] seconds, in milliseconds. *)
Definition stepDuration (duration : Q) : Q :=
  ((duration * 1000) / inject_Z (Z.of_nat steps))%Q.

Definition applyFade (audio : AudioId) (targetVolume duration : Q)
    (onComplete : FadeCallback) (w : World) : World :=
  if Qle_bool duration 0%Q then
    invokeOnComplete onComplete audio (setVolume ByFade audio targetVolume w)
  else
    let startVolume := getVolume audio w in
    let volumeDelta := (targetVolume - startVolume)%Q in
    let volumeStep := (volumeDelta / inject_Z (Z.of_nat steps))%Q in
    let w1 := match fadeIntervalRef w with
              | Some t => clearInterval t w
              | None => w
              end in
    let '(t, w2) := armTimer (FadeInterval
                      (mkFade audio startVolume volumeStep targetVolume 0 onComplete)) w1 in
    set_fadeIntervalRef (Some t) (log (SetInterval t (stepDuration duration)) w2).

(** The value an intermediate tick writes:
    [Math.min(1, Math.max(0, startVolume + volumeStep * currentStep))]. *)
Definition tickVolume (f : FadeTimer) (k : nat) : Q :=
  clamp01 (fade_startVolume f + fade_volumeStep f * inject_Z (Z.of_nat k))%Q.

Definition fade_set_currentStep (k : nat) (f : FadeTimer) : FadeTimer :=
  mkFade (fade_audio f) (fade_startVolume f) (fade_volumeStep f)
         (fade_targetVolume f) k (fade_onComplete f).

(** One firing of the interval callback of an armed fade timer [t]. *)
Definition fadeTick (t : TimerId) (w : World) : World :=
  match timers w !! t with
  | Some (FadeInterval f) =>
      let k := S (fade_currentStep f) in
      let w1 := set_timers (<[t := FadeInterval (fade_set_currentStep k f)]> (timers w)) w in
      if (steps <=? k)%nat then
        let w2 := setVolume ByFade (fade_audio f) (fade_targetVolume f) w1 in
        let w3 := match fadeIntervalRef w2 with
                  | Some t' => set_fadeIntervalRef None (clearInterval t' w2)
                  | None => w2
                  end in
        invokeOnComplete (fade_onComplete f) (fade_audio f) w3
      else
        setVolume ByFade (fade_audio f) (tickVolume f k) w1
  | _ => w
  end.

(** ** Options (index.ts 8-94) and their defaults (254-266) *)

Record SoundEffectOptions := mkOptions {
  opt_volume : option Q;
  opt_preload : option bool;
  opt_loop : option bool;
  opt_playRandomly : option bool;
  opt_minInterval : option Q;
  opt_maxInterval : option Q;
  opt_autoplay : option bool;
  opt_startFrom : option Q;
  opt_stopAt : option Q;
  opt_transitionStart : option Q;
  opt_transitionEnd : option Q
}.

(** The destructured options, as the callbacks close over them. *)
Record Config := mkConfig {
  soundUrl : string;
  initialVolume : Q;
  preload : bool;
  loop : bool;
  playRandomly : bool;
  minInterval : Q;
  maxInterval : Q;
  autoplay : bool;
  startFrom : Q;
  stopAt : option Q;
  transitionStart : Q;
  transitionEnd : Q
}.

Definition destructure (url : string) (o : SoundEffectOptions) : Config :=
  mkConfig url
    (default 1%Q (opt_volume o))
    (default true (opt_preload o))
    (default false (opt_loop o))
    (default false (opt_playRandomly o))
    (default 5000%Q (opt_minInterval o))
    (default 15000%Q (opt_maxInterval o))
    (default false (opt_autoplay o))
    (default 0%Q (opt_startFrom o))
    (opt_stopAt o)
    (default 0%Q (opt_transitionStart o))
    (default 0%Q (opt_transitionEnd o)).

(** [0 < x] as a boolean, for the tests [transitionStart > 0] and
    [transitionEnd > 0]. *)
Definition Qpositive (x : Q) : bool := negb (Qle_bool x 0%Q).

(** ** Completions: a callback either returns or throws *)

Inductive Completion (A : Type) :=
| Normal (x : A) (w : World)
| Throw (w : World).
Arguments Normal {A} x w.
Arguments Throw {A} w.

Definition M (A : Type) : Type := World -> Completion A.

Definition ret {A} (x : A) : M A := fun w => Normal x w.
Definition bind {A B} (m : M A) (k : A -> M B) : M B :=
  fun w => match m w with
           | Normal x w' => k x w'
           | Throw w' => Throw w'
           end.
(** A host call that cannot throw. *)
Definition call {A} (f : World -> A * World) : M A :=
  fun w => let '(x, w') := f w in Normal x w'.
Definition exec (f : World -> World) : M unit := fun w => Normal tt (f w).
Definition gets {A} (f : World -> A) : M A := fun w => Normal (f w) w.
(** [try { body } catch (error) { handler }] *)
Definition tryCatch (body handler : M unit) : M unit :=
  fun w => match body w with
           | Normal x w' => Normal x w'
           | Throw w' => handler w'
           end.

Declare Scope completion_scope.
Delimit Scope completion_scope with M.
Notation "x <- m ;; k" := (bind m (fun x => k))
  (at level 100, m at next level, right associativity) : completion_scope.
Notation "m ;; k" := (bind m (fun _ => k))
  (at level 100, right associativity) : completion_scope.

(** The world a completion ends in. *)
Definition worldOf {A} (c : Completion A) : World :=
  match c with Normal _ w => w | Throw w => w end.

(** The host calls inside the [try] block of [playSoundEffect] that the
    host may answer with an exception. *)
Inductive TryStmt := AtNewAudio | AtSetCurrentTime | AtSetVolume | AtPlay.

Global Instance TryStmt_eq_dec : EqDecision TryStmt.
Proof. solve_decision. Defined.

(** The host throws at statement [s] when [fault] names it. *)
Definition mayThrow (fault : option TryStmt) (s : TryStmt) : M unit :=
  fun w => if decide (fault = Some s) then Throw w else Normal tt w.

(** ** playSoundEffect (index.ts 369-443) *)

(** [if (!stopAt) return]: [undefined] and [0] are both falsy. *)
Definition truthy (x : option Q) : bool :=
  match x with
  | Some s => negb (Qeq_bool s 0%Q)
  | None => false
  end.

(** The 'timeupdate' listener of the session on [audio] (396-412). *)
Definition handleTimeUpdate (cfg : Config) (audio : AudioId) (w : World) : World :=
  match stopAt cfg with
  | Some stopAt_ =>
      if negb (truthy (stopAt cfg)) then w else
      let currentTime := getCurrentTime audio w in
      let shouldFadeOut := Qpositive (transitionEnd cfg)
                           && Qle_bool (stopAt_ - transitionEnd cfg)%Q currentTime in
      let shouldStop := Qle_bool stopAt_ currentTime in
      if shouldStop then cleanup (pause audio w)
      else if shouldFadeOut && negb (bool_decide (is_Some (fadeIntervalRef w))) then
        applyFade audio 0%Q (transitionEnd cfg) PauseAndCleanup w
      else w
  | None => w
  end.

(** The 'ended' listener of the session on [audio] (417-421). *)
Definition handleEnded (cfg : Config) (audio : AudioId) (w : World) : World :=
  if bool_decide (audioRef w = Some audio) && negb (loop cfg) then cleanup w else w.

(** The 'error' listener (424-427) and the rejection handler of
    [audio.play()] (430-433): the same two statements. *)
Definition handleError (w : World) : World := cleanup (log ConsoleError w).
Definition handlePlayRejected (w : World) : World := cleanup (log ConsoleError w).

(** The body of the [try] block. *)
Definition tryBody (cfg : Config) (fault : option TryStmt) : M unit :=
  (mayThrow fault AtNewAudio ;;
   audio <- call (newAudio (soundUrl cfg)) ;;
   exec (set_audioRef (Some audio)) ;;
   mayThrow fault AtSetCurrentTime ;;
   exec (updElement audio (el_set_currentTime (startFrom cfg))) ;;
   exec (updElement audio (el_set_loop (loop cfg))) ;;
   targetVolume <- gets (fun w => clamp01 (currentVolume w)) ;;
   mayThrow fault AtSetVolume ;;
   exec (setVolume ByPlay audio
           (if Qpositive (transitionStart cfg) then 0%Q else targetVolume)) ;;
   exec (setIsPlaying true) ;;
   exec (updElement audio el_set_listeners) ;;
   mayThrow fault AtPlay ;;
   exec (hostPlay audio) ;;
   if Qpositive (transitionStart cfg)
   then exec (applyFade audio targetVolume (transitionStart cfg) NoCallback)
   else ret tt)%M.

Definition playSoundEffect (cfg : Config) (fault : option TryStmt) : M unit :=
  fun w =>
    if negb (isMountedRef w) then Normal tt w
    else
      (exec cleanup ;;
       tryCatch (tryBody cfg fault)
                (exec (log ConsoleError) ;; exec cleanup))%M w.

(** ** Random scheduling (index.ts 455-494) *)

(** [r] is the value [Math.random()] returns. *)
Definition randomDelay (cfg : Config) (r : Q) : Q :=
  (inject_Z (Qfloor (r * (maxInterval cfg - minInterval cfg + 1))) + minInterval cfg)%Q.

Definition scheduleNextPlay (cfg : Config) (r : Q) (w : World) : World :=
  let '(t, w1) := armTimer (RandomTimeout (randomDelay cfg r)) w in
  set_intervalRef (Some t) (log (SetTimeout t (randomDelay cfg r)) w1).

Definition startRandomPlayback (cfg : Config) (r : Q) (w : World) : World :=
  if negb (isMountedRef w) then w
  else
    let w1 := match intervalRef w with
              | Some t => set_intervalRef None (clearTimeout t w)
              | None => w
              end in
    scheduleNextPlay cfg r w1.

(** The callback of the timeout [t] armed by [scheduleNextPlay]; a
    timeout that is no longer armed does not fire.  [r] is the next value
    of [Math.random()]. *)
Definition randomTimeoutFired (cfg : Config) (t : TimerId)
    (fault : option TryStmt) (r : Q) (w : World) : World :=
  match timers w !! t with
  | Some (RandomTimeout _) =>
      let w1 := set_timers (delete t (timers w)) w in
      if isMountedRef w1
      then scheduleNextPlay cfg r (worldOf (playSoundEffect cfg fault w1))
      else w1
  | _ => w
  end.

Definition stopRandomPlayback (w : World) : World :=
  match intervalRef w with
  | Some t => set_intervalRef None (clearTimeout t w)
  | None => w
  end.

(** ** adjustVolume (index.ts 506-516) *)

Definition adjustVolume (newVolume : Q) (w : World) : Q * World :=
  let clampedVolume := clamp01 newVolume in
  let w1 := setCurrentVolume clampedVolume w in
  let w2 := match audioRef w1 with
            | Some a => setVolume ByAdjust a clampedVolume w1
            | None => w1
            end in
  (clampedVolume, w2).

(** ** Construction: first render and mount effects (index.ts 250-274, 523-570) *)

Definition initialWorld (cfg : Config) : World :=
  mkWorld [] ∅ 1 None None None true false (initialVolume cfg) [].

Definition preloadEffect (cfg : Config) (w : World) : World :=
  if preload cfg && negb (bool_decide (is_Some (audioRef w))) then
    let '(a, w1) := newAudio (soundUrl cfg) w in
    let w2 := setVolume ByPreload a (clamp01 (initialVolume cfg)) w1 in
    set_audioRef (Some a) (updElement a el_set_preloadAuto w2)
  else w.

Definition autoplayEffect (cfg : Config) (fault : option TryStmt) : M unit :=
  if autoplay cfg then playSoundEffect cfg fault else ret tt.

Definition randomEffect (cfg : Config) (r : Q) (w : World) : World :=
  if playRandomly cfg then startRandomPlayback cfg r w else stopRandomPlayback w.

(** The mount effects, in the order they are declared. *)
Definition mountEffects (cfg : Config) (fault : option TryStmt) (r : Q) : M unit :=
  (exec (preloadEffect cfg) ;;
   autoplayEffect cfg fault ;;
   exec (randomEffect cfg r))%M.

(** The hook called for the first time: the options are destructured, the
    refs and state are initialised, and the effects run.  Nothing in the
    hook body inspects the options. *)
Definition useSoundEffect (url : string) (options : SoundEffectOptions)
    (fault : option TryStmt) (r : Q) : Completion Config :=
  let cfg := destructure url options in
  (mountEffects cfg fault r ;; ret cfg)%M (initialWorld cfg).

(** Disposal: the effect cleanups, in declaration order (555-557, 566-569). *)
Definition unmount (w : World) : World :=
  cleanup (set_isMountedRef false (stopRandomPlayback w)).

(** ** Everything that can happen to a mounted controller *)

Inductive Action :=
| CallPlay (fault : option TryStmt)
| CallStop
| CallStartRandom (r : Q)
| CallStopRandom
| CallAdjustVolume (v : Q)
| FireTimeUpdate (a : AudioId) (position : Q)
| FireEnded (a : AudioId)
| FireError (a : AudioId)
| RejectPlay (a : AudioId)
| FireInterval (t : TimerId)
| FireTimeout (t : TimerId) (fault : option TryStmt) (r : Q)
| Unmount.

(** Listeners exist only on the elements [playSoundEffect] created. *)
Definition hasListeners (a : AudioId) (w : World) : bool :=
  match audios w !! a with Some el => el_listeners el | None => false end.

Definition step (cfg : Config) (act : Action) (w : World) : World :=
  match act with
  | CallPlay fault => worldOf (playSoundEffect cfg fault w)
  | CallStop => stopSoundEffect w
  | CallStartRandom r => startRandomPlayback cfg r w
  | CallStopRandom => stopRandomPlayback w
  | CallAdjustVolume v => snd (adjustVolume v w)
  | FireTimeUpdate a position =>
      if hasListeners a w
      then handleTimeUpdate cfg a (updElement a (el_set_currentTime position) w)
      else w
  | FireEnded a => if hasListeners a w then handleEnded cfg a w else w
  | FireError a => if hasListeners a w then handleError w else w
  | RejectPlay a => if hasListeners a w then handlePlayRejected w else w
  | FireInterval t => fadeTick t w
  | FireTimeout t fault r => randomTimeoutFired cfg t fault r w
  | Unmount => unmount w
  end.

Definition run (cfg : Config) (acts : list Action) (w : World) : World :=
  fold_left (fun w act => step cfg act w) acts w.

(** * Properties *)

(** ** Observations *)

(** A handle is live when its element is not paused. *)
Definition isLive (w : World) (a : AudioId) : bool :=
  match audios w !! a with Some el => negb (el_paused el) | None => false end.

Definition liveHandles (w : World) : list AudioId :=
  filter (λ a, isLive w a = true) (seq 0 (length (audios w))).

(** The volumes the fader wrote, oldest first. *)
Definition fadeWrites (tr : list HostCall) : list Q :=
  omap (λ c, match c with SetVolume ByFade _ v => Some v | _ => None end) tr.

(** How often an [onComplete] callback was invoked. *)
Definition isOnComplete (c : HostCall) : bool :=
  match c with OnComplete _ => true | _ => false end.
Definition onCompleteCount (tr : list HostCall) : nat :=
  length (filter (λ c, isOnComplete c = true) tr).

Definition in01 (v : Q) : Prop := (0 <= v)%Q ∧ (v <= 1)%Q.

(** A session is torn down: no handle, no timers, not playing. *)
Definition tornDown (w : World) : Prop :=
  audioRef w = None ∧ intervalRef w = None ∧ fadeIntervalRef w = None
  ∧ isPlaying w = false.

(** ** clamp01 *)

Lemma clamp01_in01 v : in01 (clamp01 v).
Proof.
  unfold in01, clamp01. split.
  - apply Q.min_glb; [discriminate | apply Q.le_max_l].
  - apply Q.le_min_l.
Qed.

Lemma clamp01_wd v v' : (v == v')%Q → (clamp01 v == clamp01 v')%Q.
Proof. unfold clamp01. intros ->. reflexivity. Qed.

(** ** Frame lemmas for the host primitives *)

Section Frames.
Variables (a : AudioId) (f : HTMLAudioElement → HTMLAudioElement) (w : World).

Lemma updElement_timers : timers (updElement a f w) = timers w.
Proof. unfold updElement. by destruct (audios w !! a). Qed.
Lemma updElement_nextTimer : nextTimer (updElement a f w) = nextTimer w.
Proof. unfold updElement. by destruct (audios w !! a). Qed.
Lemma updElement_audioRef : audioRef (updElement a f w) = audioRef w.
Proof. unfold updElement. by destruct (audios w !! a). Qed.
Lemma updElement_intervalRef : intervalRef (updElement a f w) = intervalRef w.
Proof. unfold updElement. by destruct (audios w !! a). Qed.
Lemma updElement_fadeIntervalRef :
  fadeIntervalRef (updElement a f w) = fadeIntervalRef w.
Proof. unfold updElement. by destruct (audios w !! a). Qed.
Lemma updElement_isMountedRef : isMountedRef (updElement a f w) = isMountedRef w.
Proof. unfold updElement. by destruct (audios w !! a). Qed.
Lemma updElement_isPlaying : isPlaying (updElement a f w) = isPlaying w.
Proof. unfold updElement. by destruct (audios w !! a). Qed.
Lemma updElement_currentVolume : currentVolume (updElement a f w) = currentVolume w.
Proof. unfold updElement. by destruct (audios w !! a). Qed.
Lemma updElement_trace : trace (updElement a f w) = trace w.
Proof. unfold updElement. by destruct (audios w !! a). Qed.

Lemma updElement_length : length (audios (updElement a f w)) = length (audios w).
Proof.
  unfold updElement. destruct (audios w !! a); simpl; [apply length_insert | done].
Qed.

Lemma updElement_lookup b :
  audios (updElement a f w) !! b
  = if decide (a = b) then f <$> audios w !! b else audios w !! b.
Proof.
  unfold updElement. destruct (audios w !! a) as [el|] eqn:E; simpl.
  - destruct (decide (a = b)) as [<-|N].
    + rewrite list_lookup_insert_eq by (by eapply lookup_lt_Some). by rewrite E.
    + by rewrite list_lookup_insert_ne.
  - destruct (decide (a = b)) as [<-|N]; [by rewrite E | done].
Qed.
End Frames.

Create Rewrite HintDb world.
#[local] Hint Rewrite updElement_timers updElement_nextTimer updElement_audioRef
  updElement_intervalRef updElement_fadeIntervalRef updElement_isMountedRef
  updElement_isPlaying updElement_currentVolume updElement_trace
  updElement_length : world.

(** Normalise projections of a world built by the primitives. *)
Ltac wsimpl :=
  repeat (progress (cbn [audios timers nextTimer audioRef intervalRef fadeIntervalRef
                         isMountedRef isPlaying currentVolume trace
                         set_audios set_timers set_nextTimer set_audioRef
                         set_intervalRef set_fadeIntervalRef set_isMountedRef
                         setIsPlaying setCurrentVolume log pause hostPlay setVolume
                         clearTimeout clearInterval armTimer newAudio fst snd] in *)
          || autorewrite with world in *).

(** ** cleanup *)

Lemma cleanup_tornDown w : tornDown (cleanup w).
Proof.
  unfold tornDown, cleanup.
  destruct (audioRef w) eqn:?; wsimpl;
    destruct (intervalRef w) eqn:?; wsimpl;
    destruct (fadeIntervalRef w) eqn:?; wsimpl; auto.
Qed.

(** [clearTimeout]/[clearInterval] of the handle a ref holds, if any. *)
Definition disarm (ref : option TimerId) (m : gmap nat Timer) : gmap nat Timer :=
  match ref with Some t => delete t m | None => m end.

(** The host calls [cleanup] makes in world [w]. *)
Definition cleanupCalls (w : World) : list HostCall :=
  match audioRef w with Some a => [Pause a] | None => [] end
  ++ match intervalRef w with Some t => [ClearTimeout t] | None => [] end
  ++ match fadeIntervalRef w with Some t => [ClearInterval t] | None => [] end.

Ltac cleanup_cases w :=
  unfold cleanup;
  destruct (audioRef w) eqn:?; wsimpl;
  destruct (intervalRef w) eqn:?; wsimpl;
  destruct (fadeIntervalRef w) eqn:?; wsimpl.

Lemma cleanup_audios w :
  audios (cleanup w)
  = match audioRef w with
    | Some a => audios (updElement a (el_set_paused true) w)
    | None => audios w
    end.
Proof. cleanup_cases w; reflexivity. Qed.

Lemma cleanup_timers w :
  timers (cleanup w) = disarm (fadeIntervalRef w) (disarm (intervalRef w) (timers w)).
Proof. cleanup_cases w; reflexivity. Qed.

Lemma cleanup_nextTimer w : nextTimer (cleanup w) = nextTimer w.
Proof. cleanup_cases w; reflexivity. Qed.

Lemma cleanup_isMountedRef w : isMountedRef (cleanup w) = isMountedRef w.
Proof. cleanup_cases w; reflexivity. Qed.

Lemma cleanup_currentVolume w : currentVolume (cleanup w) = currentVolume w.
Proof. cleanup_cases w; reflexivity. Qed.

Lemma cleanup_trace w : trace (cleanup w) = trace w ++ cleanupCalls w.
Proof.
  unfold cleanupCalls. cleanup_cases w; rewrite <- ?app_assoc; simpl;
    rewrite ?app_nil_r; reflexivity.
Qed.

Lemma cleanup_audioRef w : audioRef (cleanup w) = None.
Proof. apply cleanup_tornDown. Qed.
Lemma cleanup_intervalRef w : intervalRef (cleanup w) = None.
Proof. apply cleanup_tornDown. Qed.
Lemma cleanup_fadeIntervalRef w : fadeIntervalRef (cleanup w) = None.
Proof. apply cleanup_tornDown. Qed.
Lemma cleanup_isPlaying w : isPlaying (cleanup w) = false.
Proof. apply cleanup_tornDown. Qed.

Lemma cleanup_length w : length (audios (cleanup w)) = length (audios w).
Proof. rewrite cleanup_audios. destruct (audioRef w); by wsimpl. Qed.

#[local] Hint Rewrite cleanup_timers cleanup_nextTimer cleanup_isMountedRef
  cleanup_currentVolume cleanup_trace cleanup_audioRef cleanup_intervalRef
  cleanup_fadeIntervalRef cleanup_isPlaying cleanup_length : world.

(** ** Liveness *)

Lemma isLive_updElement a f w b :
  (∀ el, el_paused (f el) = el_paused el) →
  isLive (updElement a f w) b = isLive w b.
Proof.
  intros Hf. unfold isLive. rewrite updElement_lookup.
  destruct (decide (a = b)); [|done].
  destruct (audios w !! b); simpl; [by rewrite Hf | done].
Qed.

Lemma isLive_paused a w b :
  isLive (updElement a (el_set_paused true) w) b
  = isLive w b && negb (bool_decide (a = b)).
Proof.
  unfold isLive. rewrite updElement_lookup.
  destruct (decide (a = b)) as [->|N].
  - rewrite bool_decide_eq_true_2 by done. destruct (audios w !! b); simpl; by rewrite ?andb_false_r.
  - rewrite bool_decide_eq_false_2 by done. by rewrite andb_true_r.
Qed.

Lemma isLive_cleanup w b :
  isLive (cleanup w) b = isLive w b && negb (bool_decide (audioRef w = Some b)).
Proof.
  unfold isLive at 1. rewrite cleanup_audios.
  destruct (audioRef w) as [a|] eqn:E.
  - fold (isLive (updElement a (el_set_paused true) w) b). rewrite isLive_paused.
    f_equal. f_equal. apply bool_decide_ext. split; congruence.
  - fold (isLive w b). by rewrite andb_true_r.
Qed.

(** ** playSoundEffect, unfolded *)

(** What [playSoundEffect] does once the previous session is torn down. *)
Definition startSession (cfg : Config) (fault : option TryStmt) (w0 : World) : World :=
  match tryBody cfg fault w0 with
  | Normal _ w' => w'
  | Throw w' => cleanup (log ConsoleError w')
  end.

Lemma playSoundEffect_unmounted cfg fault w :
  isMountedRef w = false → playSoundEffect cfg fault w = Normal tt w.
Proof. unfold playSoundEffect. by intros ->. Qed.

Lemma playSoundEffect_mounted cfg fault w :
  isMountedRef w = true →
  playSoundEffect cfg fault w = Normal tt (startSession cfg fault (cleanup w)).
Proof.
  unfold playSoundEffect, startSession, tryCatch, bind, exec. intros ->. simpl.
  by destruct (tryBody cfg fault (cleanup w)) as [[] ?|?].
Qed.

(** The session body when the host does not throw. *)
Definition sessionBody (cfg : Config) (w0 : World) : World :=
  let audio := length (audios w0) in
  let targetVolume := clamp01 (currentVolume w0) in
  let w1 := set_audioRef (Some audio) (snd (newAudio (soundUrl cfg) w0)) in
  let w2 := updElement audio (el_set_loop (loop cfg))
              (updElement audio (el_set_currentTime (startFrom cfg)) w1) in
  let w3 := setVolume ByPlay audio
              (if Qpositive (transitionStart cfg) then 0%Q else targetVolume) w2 in
  let w4 := hostPlay audio (updElement audio el_set_listeners (setIsPlaying true w3)) in
  if Qpositive (transitionStart cfg)
  then applyFade audio targetVolume (transitionStart cfg) NoCallback w4
  else w4.

Lemma tryBody_no_fault cfg w0 : tryBody cfg None w0 = Normal tt (sessionBody cfg w0).
Proof.
  unfold tryBody, sessionBody, bind, exec, call, gets, mayThrow, ret. simpl.
  wsimpl. by destruct (Qpositive (transitionStart cfg)).
Qed.

(** The world in which the [try] block is left when the host throws at
    statement [s]. *)
Definition thrownAt (cfg : Config) (s : TryStmt) (w0 : World) : World :=
  let audio := length (audios w0) in
  let w1 := set_audioRef (Some audio) (snd (newAudio (soundUrl cfg) w0)) in
  let w2 := updElement audio (el_set_loop (loop cfg))
              (updElement audio (el_set_currentTime (startFrom cfg)) w1) in
  let w3 := setVolume ByPlay audio
              (if Qpositive (transitionStart cfg) then 0%Q
               else clamp01 (currentVolume w0)) w2 in
  match s with
  | AtNewAudio => w0
  | AtSetCurrentTime => w1
  | AtSetVolume => w2
  | AtPlay => updElement audio el_set_listeners (setIsPlaying true w3)
  end.

Lemma tryBody_fault cfg s w0 : tryBody cfg (Some s) w0 = Throw (thrownAt cfg s w0).
Proof.
  unfold tryBody, thrownAt, bind, exec, call, gets, mayThrow, ret.
  destruct s; simpl; wsimpl; reflexivity.
Qed.

(** ** The at-most-one-session invariant *)

(** Every live handle is the one [audioRef] holds. *)
Definition Inv (w : World) : Prop := ∀ b, isLive w b = true → audioRef w = Some b.

Definition noLive (w : World) : Prop := ∀ b, isLive w b = false.

Lemma isLive_same w w' b : audios w' = audios w → isLive w' b = isLive w b.
Proof. unfold isLive. by intros ->. Qed.

Lemma noLive_Inv w : noLive w → Inv w.
Proof. intros H b Hb. by rewrite H in Hb. Qed.

Lemma Inv_quiet w w' :
  Inv w → (∀ b, isLive w' b = true → isLive w b = true) →
  audioRef w' = audioRef w → Inv w'.
Proof. intros HI Hq E b Hb. rewrite E. auto. Qed.

Lemma noLive_quiet w w' :
  noLive w → (∀ b, isLive w' b = true → isLive w b = true) → noLive w'.
Proof.
  intros HI Hq b. destruct (isLive w' b) eqn:E; [|done].
  apply Hq in E. by rewrite HI in E.
Qed.

Lemma cleanup_noLive w : Inv w → noLive (cleanup w).
Proof.
  intros HI b. rewrite isLive_cleanup.
  destruct (isLive w b) eqn:E; [|done]. simpl.
  by rewrite bool_decide_eq_true_2 by auto.
Qed.

Lemma cleanup_Inv w : Inv w → Inv (cleanup w).
Proof. intros. by apply noLive_Inv, cleanup_noLive. Qed.

Lemma pause_quiet a w b : isLive (pause a w) b = true → isLive w b = true.
Proof.
  unfold pause. rewrite (isLive_same (updElement a (el_set_paused true) w)) by done.
  rewrite isLive_paused. by intros [? _]%andb_true_iff.
Qed.

Lemma pause_Inv a w : Inv w → Inv (pause a w).
Proof.
  intros HI. eapply Inv_quiet; [done | apply pause_quiet | by wsimpl].
Qed.

Lemma setVolume_isLive by_ a v w b : isLive (setVolume by_ a v w) b = isLive w b.
Proof.
  unfold setVolume. rewrite (isLive_same (updElement a (el_set_volume v) w)) by done.
  by apply isLive_updElement.
Qed.

(** At most one live handle, stated on the list of live handles. *)
Lemma liveHandles_spec w a : a ∈ liveHandles w ↔ isLive w a = true.
Proof.
  unfold liveHandles. rewrite list_elem_of_filter, elem_of_seq. split; [tauto|].
  intros H. split; [done|]. unfold isLive in H.
  destruct (audios w !! a) eqn:E; [|done]. apply lookup_lt_Some in E. lia.
Qed.

Lemma liveHandles_NoDup w : NoDup (liveHandles w).
Proof. apply NoDup_filter, NoDup_seq. Qed.

Lemma Inv_at_most_one w : Inv w → length (liveHandles w) ≤ 1.
Proof.
  intros HI. pose proof (liveHandles_NoDup w) as ND.
  destruct (liveHandles w) as [|x [|y l]] eqn:E; simpl; [lia | lia |].
  exfalso.
  assert (Hx : audioRef w = Some x) by (apply HI, liveHandles_spec; rewrite E; set_solver).
  assert (Hy : audioRef w = Some y) by (apply HI, liveHandles_spec; rewrite E; set_solver).
  assert (x = y) by congruence. subst. apply NoDup_cons in ND as [ND _]. set_solver.
Qed.

Lemma noLive_liveHandles w : noLive w → liveHandles w = [].
Proof.
  intros H. destruct (liveHandles w) as [|x l] eqn:E; [done|].
  assert (isLive w x = true) by (apply liveHandles_spec; rewrite E; set_solver).
  by rewrite H in *.
Qed.

Lemma Inv_same w w' :
  Inv w → audios w' = audios w → audioRef w' = audioRef w → Inv w'.
Proof.
  intros HI Ea Er. apply (Inv_quiet w); [done | | done].
  intros b. by rewrite (isLive_same w).
Qed.

Lemma isLive_newAudio url w b : isLive (snd (newAudio url w)) b = isLive w b.
Proof.
  unfold isLive, newAudio. simpl.
  destruct (decide (b < length (audios w))) as [L|L].
  - by rewrite lookup_app_l.
  - rewrite (lookup_ge_None_2 (audios w)) by lia.
    destruct (decide (b = length (audios w))) as [->|N].
    + by rewrite list_lookup_middle.
    + rewrite lookup_ge_None_2; [done|]. rewrite length_app. simpl. lia.
Qed.

Lemma hostPlay_isLive a w b :
  isLive (hostPlay a w) b = true → isLive w b = true ∨ b = a.
Proof.
  unfold hostPlay. rewrite (isLive_same (updElement a (el_set_paused false) w)) by done.
  unfold isLive. rewrite updElement_lookup.
  destruct (decide (a = b)); auto.
Qed.

Lemma armTimer_audios tm w : audios (snd (armTimer tm w)) = audios w.
Proof. reflexivity. Qed.

Lemma applyFade_timed_audios a tgt d cb w :
  Qle_bool d 0 = false → audios (applyFade a tgt d cb w) = audios w.
Proof.
  unfold applyFade. intros ->. by destruct (fadeIntervalRef w).
Qed.

Lemma applyFade_timed_audioRef a tgt d cb w :
  Qle_bool d 0 = false → audioRef (applyFade a tgt d cb w) = audioRef w.
Proof.
  unfold applyFade. intros ->. by destruct (fadeIntervalRef w).
Qed.

Lemma log_Inv c w : Inv w → Inv (log c w).
Proof. intros HI. by apply (Inv_same w). Qed.

Lemma setVolume_Inv by_ a v w : Inv w → Inv (setVolume by_ a v w).
Proof.
  intros HI. apply (Inv_quiet w); [done | | by wsimpl].
  intros b. by rewrite setVolume_isLive.
Qed.

Lemma invokeOnComplete_Inv cb a w : Inv w → Inv (invokeOnComplete cb a w).
Proof.
  intros HI. destruct cb; simpl; [done|].
  by apply cleanup_Inv, pause_Inv, log_Inv.
Qed.

Lemma applyFade_Inv a tgt d cb w : Inv w → Inv (applyFade a tgt d cb w).
Proof.
  intros HI. destruct (Qle_bool d 0) eqn:E.
  - unfold applyFade. rewrite E. by apply invokeOnComplete_Inv, setVolume_Inv.
  - apply (Inv_same w); [done | by apply applyFade_timed_audios
                         | by apply applyFade_timed_audioRef].
Qed.

Lemma updElement_Inv a f w :
  (∀ el, el_paused (f el) = el_paused el) → Inv w → Inv (updElement a f w).
Proof.
  intros Hf HI. apply (Inv_quiet w); [done | | by wsimpl].
  intros b. by rewrite isLive_updElement.
Qed.

Lemma fadeTick_Inv t w : Inv w → Inv (fadeTick t w).
Proof.
  intros HI. unfold fadeTick.
  destruct (timers w !! t) as [[f|]|]; try done.
  set (w1 := set_timers _ w). assert (H1 : Inv w1) by (by apply (Inv_same w)).
  destruct (steps <=? S (fade_currentStep f))%nat.
  - apply invokeOnComplete_Inv.
    assert (H2 : Inv (setVolume ByFade (fade_audio f) (fade_targetVolume f) w1))
      by (by apply setVolume_Inv).
    destruct (fadeIntervalRef _); [|done].
    eapply Inv_same; [exact H2 | done | done].
  - by apply setVolume_Inv.
Qed.

Lemma handleTimeUpdate_Inv cfg a w : Inv w → Inv (handleTimeUpdate cfg a w).
Proof.
  intros HI. unfold handleTimeUpdate.
  destruct (stopAt cfg) as [s|]; [|done].
  destruct (negb _); [done|].
  destruct (Qle_bool s _).
  - by apply cleanup_Inv, pause_Inv.
  - destruct (_ && _); [by apply applyFade_Inv | done].
Qed.

Lemma handleEnded_Inv cfg a w : Inv w → Inv (handleEnded cfg a w).
Proof. intros HI. unfold handleEnded. destruct (_ && _); [by apply cleanup_Inv | done]. Qed.

Lemma handleError_Inv w : Inv w → Inv (handleError w).
Proof. intros HI. by apply cleanup_Inv, log_Inv. Qed.

Lemma scheduleNextPlay_Inv cfg r w : Inv w → Inv (scheduleNextPlay cfg r w).
Proof. intros HI. by apply (Inv_same w). Qed.

Lemma stopRandomPlayback_Inv w : Inv w → Inv (stopRandomPlayback w).
Proof.
  intros HI. unfold stopRandomPlayback. destruct (intervalRef w); [|done].
  by apply (Inv_same w).
Qed.

Lemma startRandomPlayback_Inv cfg r w : Inv w → Inv (startRandomPlayback cfg r w).
Proof.
  intros HI. unfold startRandomPlayback. destruct (negb _); [done|].
  apply scheduleNextPlay_Inv. destruct (intervalRef w); [|done].
  by apply (Inv_same w).
Qed.

Lemma adjustVolume_Inv v w : Inv w → Inv (snd (adjustVolume v w)).
Proof.
  intros HI. unfold adjustVolume. simpl.
  destruct (audioRef w) eqn:E; [|by apply (Inv_same w)].
  apply setVolume_Inv. by apply (Inv_same w).
Qed.

Lemma isLive_set_audioRef x w b : isLive (set_audioRef x w) b = isLive w b.
Proof. reflexivity. Qed.
Lemma isLive_setIsPlaying x w b : isLive (setIsPlaying x w) b = isLive w b.
Proof. reflexivity. Qed.

Lemma thrownAt_isLive cfg s w0 b : isLive (thrownAt cfg s w0) b = isLive w0 b.
Proof.
  unfold thrownAt. destruct s; [done | ..];
    rewrite ?isLive_updElement, ?isLive_setIsPlaying, ?setVolume_isLive,
            ?isLive_updElement, ?isLive_set_audioRef by done;
    apply isLive_newAudio.
Qed.

(** The session once [audio.play()] was called: the world the last
    throwing point would leave, with the new element playing. *)
Definition sessionPlaying (cfg : Config) (w0 : World) : World :=
  hostPlay (length (audios w0)) (thrownAt cfg AtPlay w0).

Lemma sessionBody_sessionPlaying cfg w0 :
  sessionBody cfg w0
  = if Qpositive (transitionStart cfg)
    then applyFade (length (audios w0)) (clamp01 (currentVolume w0))
                   (transitionStart cfg) NoCallback (sessionPlaying cfg w0)
    else sessionPlaying cfg w0.
Proof.
  unfold sessionBody, sessionPlaying, thrownAt. cbv beta iota zeta. exact eq_refl.
Qed.

Lemma hostPlay_audioRef a w : audioRef (hostPlay a w) = audioRef w.
Proof. unfold hostPlay. by wsimpl. Qed.
Lemma hostPlay_length a w : length (audios (hostPlay a w)) = length (audios w).
Proof. unfold hostPlay. by wsimpl. Qed.
Lemma setVolume_audioRef by_ a v w : audioRef (setVolume by_ a v w) = audioRef w.
Proof. by wsimpl. Qed.
Lemma setVolume_length by_ a v w :
  length (audios (setVolume by_ a v w)) = length (audios w).
Proof. by wsimpl. Qed.
Lemma setIsPlaying_audioRef x w : audioRef (setIsPlaying x w) = audioRef w.
Proof. reflexivity. Qed.
Lemma setIsPlaying_audios x w : audios (setIsPlaying x w) = audios w.
Proof. reflexivity. Qed.
Lemma set_audioRef_audios x w : audios (set_audioRef x w) = audios w.
Proof. reflexivity. Qed.

Lemma sessionPlaying_audioRef cfg w0 :
  audioRef (sessionPlaying cfg w0) = Some (length (audios w0)).
Proof.
  unfold sessionPlaying, thrownAt.
  rewrite hostPlay_audioRef, updElement_audioRef, setIsPlaying_audioRef,
          setVolume_audioRef, !updElement_audioRef.
  exact eq_refl.
Qed.

Lemma sessionPlaying_length cfg w0 :
  length (audios (sessionPlaying cfg w0)) = S (length (audios w0)).
Proof.
  unfold sessionPlaying, thrownAt.
  rewrite hostPlay_length, updElement_length, setIsPlaying_audios,
          setVolume_length, !updElement_length, set_audioRef_audios.
  unfold newAudio. cbn [snd audios log set_audios]. rewrite length_app.
  cbn [length]. lia.
Qed.

Lemma sessionPlaying_Inv cfg w0 : noLive w0 → Inv (sessionPlaying cfg w0).
Proof.
  intros H0 b Hb. rewrite sessionPlaying_audioRef.
  unfold sessionPlaying in Hb. apply hostPlay_isLive in Hb as [Hb| ->]; [|done].
  rewrite thrownAt_isLive in Hb. by rewrite H0 in Hb.
Qed.

(** The [try] block started in a world without live handles: when it
    returns, the only live handle is the new one; when it throws, the host
    has not started playing anything. *)
Lemma tryBody_live cfg fault w0 :
  noLive w0 →
  match tryBody cfg fault w0 with
  | Normal _ w' => Inv w'
  | Throw w' => noLive w'
  end.
Proof.
  intros H0. destruct fault as [s|].
  - rewrite tryBody_fault. intros b. by rewrite thrownAt_isLive.
  - rewrite tryBody_no_fault, sessionBody_sessionPlaying.
    pose proof (sessionPlaying_Inv cfg w0 H0) as H4.
    destruct (Qpositive _); [by apply applyFade_Inv | exact H4].
Qed.

Lemma startSession_Inv cfg fault w0 : noLive w0 → Inv (startSession cfg fault w0).
Proof.
  intros H0. pose proof (tryBody_live cfg fault w0 H0) as H.
  unfold startSession. destruct (tryBody cfg fault w0); [done|].
  by apply cleanup_Inv, log_Inv, noLive_Inv.
Qed.

Lemma playSoundEffect_Inv cfg fault w :
  Inv w → Inv (worldOf (playSoundEffect cfg fault w)).
Proof.
  intros HI. destruct (isMountedRef w) eqn:E.
  - rewrite playSoundEffect_mounted by done. simpl.
    by apply startSession_Inv, cleanup_noLive.
  - by rewrite playSoundEffect_unmounted.
Qed.

Lemma step_Inv cfg act w : Inv w → Inv (step cfg act w).
Proof.
  intros HI. destruct act; simpl.
  - by apply playSoundEffect_Inv.
  - by apply cleanup_Inv.
  - by apply startRandomPlayback_Inv.
  - by apply stopRandomPlayback_Inv.
  - by apply adjustVolume_Inv.
  - destruct (hasListeners a w); [|done].
    by apply handleTimeUpdate_Inv, updElement_Inv.
  - destruct (hasListeners a w); [|done]. by apply handleEnded_Inv.
  - destruct (hasListeners a w); [|done]. by apply handleError_Inv.
  - destruct (hasListeners a w); [|done]. by apply handleError_Inv.
  - by apply fadeTick_Inv.
  - unfold randomTimeoutFired. destruct (timers w !! t) as [[|]|]; try done.
    set (w1 := set_timers _ w). assert (H1 : Inv w1) by (by apply (Inv_same w)).
    destruct (isMountedRef w1); [|done].
    by apply scheduleNextPlay_Inv, playSoundEffect_Inv.
  - unfold unmount. apply cleanup_Inv.
    eapply Inv_same; [apply (stopRandomPlayback_Inv w HI) | done | done].
Qed.

Lemma run_Inv cfg acts w : Inv w → Inv (run cfg acts w).
Proof.
  revert w. induction acts as [|act acts IH]; intros w HI; simpl; [done|].
  by apply IH, step_Inv.
Qed.

Lemma playSoundEffect_returns cfg fault w :
  playSoundEffect cfg fault w = Normal tt (worldOf (playSoundEffect cfg fault w)).
Proof.
  destruct (isMountedRef w) eqn:E.
  - by rewrite playSoundEffect_mounted.
  - by rewrite playSoundEffect_unmounted.
Qed.

Lemma mountEffects_returns cfg fault r w :
  mountEffects cfg fault r w = Normal tt (worldOf (mountEffects cfg fault r w)).
Proof.
  unfold mountEffects, bind, exec, autoplayEffect, ret.
  destruct (autoplay cfg); [|done].
  by rewrite playSoundEffect_returns.
Qed.

Lemma mountEffects_Inv cfg fault r :
  Inv (worldOf (mountEffects cfg fault r (initialWorld cfg))).
Proof.
  assert (H0 : Inv (preloadEffect cfg (initialWorld cfg))).
  { apply noLive_Inv. intros b. unfold preloadEffect.
    destruct (preload cfg); simpl; [|by destruct b].
    unfold isLive. simpl. by destruct b as [|[|b]]. }
  assert (HR : ∀ w, Inv w → Inv (randomEffect cfg r w)).
  { intros w Hw. unfold randomEffect. destruct (playRandomly cfg);
      [by apply startRandomPlayback_Inv | by apply stopRandomPlayback_Inv]. }
  unfold mountEffects, bind, exec, autoplayEffect, ret.
  destruct (autoplay cfg); [|by apply HR].
  rewrite playSoundEffect_returns. by apply HR, playSoundEffect_Inv.
Qed.

Lemma useSoundEffect_world url options fault r :
  useSoundEffect url options fault r
  = Normal (destructure url options)
      (worldOf (mountEffects (destructure url options) fault r
                  (initialWorld (destructure url options)))).
Proof.
  unfold useSoundEffect, bind, ret. by rewrite mountEffects_returns.
Qed.

Lemma useSoundEffect_Inv url options fault r :
  Inv (worldOf (useSoundEffect url options fault r)).
Proof. rewrite useSoundEffect_world. apply mountEffects_Inv. Qed.

(** The trace only grows. *)
Definition extends (w w' : World) : Prop := ∃ rest, trace w' = trace w ++ rest.

Lemma extends_refl w : extends w w.
Proof. exists []. by rewrite app_nil_r. Qed.

Lemma extends_trans w1 w2 w3 : extends w1 w2 → extends w2 w3 → extends w1 w3.
Proof. intros [r1 E1] [r2 E2]. exists (r1 ++ r2). by rewrite E2, E1, app_assoc. Qed.

Lemma extends_same w w' : trace w' = trace w → extends w w'.
Proof. intros E. exists []. by rewrite app_nil_r. Qed.

Lemma extends_log c w : extends w (log c w).
Proof. by exists [c]. Qed.

Lemma extends_cleanup w : extends w (cleanup w).
Proof. exists (cleanupCalls w). apply cleanup_trace. Qed.

Lemma extends_applyFade a tgt d cb w : extends w (applyFade a tgt d cb w).
Proof.
  unfold applyFade. destruct (Qle_bool d 0).
  - destruct cb; simpl.
    + by eexists; wsimpl.
    + eexists. wsimpl. unfold cleanupCalls. wsimpl. rewrite <- !app_assoc. reflexivity.
  - destruct (fadeIntervalRef w); eexists; wsimpl; rewrite <- ?app_assoc; reflexivity.
Qed.

Lemma extends_startSession cfg fault w0 : extends w0 (startSession cfg fault w0).
Proof.
  unfold startSession. destruct fault as [[]|].
  - unfold tryBody, bind, exec, call, gets, mayThrow, ret; simpl.
    eapply extends_trans; [apply extends_log | apply extends_cleanup].
  - unfold tryBody, bind, exec, call, gets, mayThrow, ret; simpl.
    eapply extends_trans; [|apply extends_cleanup].
    eexists. wsimpl. rewrite <- !app_assoc. reflexivity.
  - unfold tryBody, bind, exec, call, gets, mayThrow, ret; simpl.
    eapply extends_trans; [|apply extends_cleanup].
    eexists. wsimpl. rewrite <- !app_assoc. reflexivity.
  - unfold tryBody, bind, exec, call, gets, mayThrow, ret; simpl.
    eapply extends_trans; [|apply extends_cleanup].
    eexists. wsimpl. rewrite <- !app_assoc. reflexivity.
  - rewrite tryBody_no_fault. unfold sessionBody.
    set (w4 := hostPlay _ _).
    assert (H4 : extends w0 w4).
    { subst w4. eexists. wsimpl. rewrite <- !app_assoc. reflexivity. }
    destruct (Qpositive _); [|done].
    eapply extends_trans; [exact H4 | apply extends_applyFade].
Qed.

(** C1. At-most-one-session invariant.  For every configuration and every
    sequence of operations and host events after construction, when
    [play()] returns at most one audio handle is live, and so it is after a
    second [play()] right behind it.  The second call first runs [cleanup]
    on the world the first one left: in the world in which the new element
    is then created no handle is live, the refs are cleared and the timers
    they held are disarmed, and everything the new session does comes
    after the teardown calls in the trace. *)
Theorem play_at_most_one_session url options fault r acts fault1 fault2 :
  let cfg := destructure url options in
  let w := run cfg acts (worldOf (useSoundEffect url options fault r)) in
  let w1 := worldOf (playSoundEffect cfg fault1 w) in
  let w2 := worldOf (playSoundEffect cfg fault2 w1) in
  length (liveHandles w1) ≤ 1
  ∧ length (liveHandles w2) ≤ 1
  ∧ (if isMountedRef w1 then
       w2 = startSession cfg fault2 (cleanup w1)
       ∧ liveHandles (cleanup w1) = []
       ∧ tornDown (cleanup w1)
       ∧ timers (cleanup w1)
         = disarm (fadeIntervalRef w1) (disarm (intervalRef w1) (timers w1))
       ∧ length (audios (cleanup w1)) = length (audios w1)
       ∧ ∃ rest, trace w2 = (trace w1 ++ cleanupCalls w1) ++ rest
     else w2 = w1).
Proof.
  intros cfg w w1 w2.
  assert (HI : Inv w) by apply run_Inv, useSoundEffect_Inv.
  assert (H1 : Inv w1) by (by apply playSoundEffect_Inv).
  assert (H2 : Inv w2) by (by apply playSoundEffect_Inv).
  split; [by apply Inv_at_most_one|]. split; [by apply Inv_at_most_one|].
  destruct (isMountedRef w1) eqn:E.
  - subst w2. rewrite playSoundEffect_mounted by done. simpl.
    split; [done|]. split; [by apply noLive_liveHandles, cleanup_noLive|].
    split; [apply cleanup_tornDown|]. split; [apply cleanup_timers|].
    split; [apply cleanup_length|].
    rewrite <- cleanup_trace. apply extends_startSession.
  - subst w2. by rewrite playSoundEffect_unmounted.
Qed.

(** ** The handle in [audioRef] is the newest element *)

Definition Newest (w : World) : Prop :=
  match audioRef w with
  | Some b => S b = length (audios w)
  | None => True
  end.

(** [w'] has the elements of [w] and the same handle, or none. *)
Definition settles (w w' : World) : Prop :=
  length (audios w') = length (audios w)
  ∧ (audioRef w' = audioRef w ∨ audioRef w' = None).

Lemma settles_refl w : settles w w.
Proof. split; auto. Qed.

Lemma settles_trans w1 w2 w3 : settles w1 w2 → settles w2 w3 → settles w1 w3.
Proof.
  intros [L1 R1] [L2 R2]. split; [congruence|].
  destruct R2 as [R2|R2]; [rewrite R2; exact R1 | by right].
Qed.

Lemma settles_same w w' :
  length (audios w') = length (audios w) → audioRef w' = audioRef w → settles w w'.
Proof. split; auto. Qed.

Lemma settles_Newest w w' : Newest w → settles w w' → Newest w'.
Proof.
  unfold Newest. intros HN [L [R|R]]; rewrite R; [|done].
  destruct (audioRef w); [congruence | done].
Qed.

Lemma settles_cleanup w : settles w (cleanup w).
Proof. split; [apply cleanup_length | right; apply cleanup_audioRef]. Qed.

Lemma settles_pause a w : settles w (pause a w).
Proof. apply settles_same; by wsimpl. Qed.

Lemma settles_setVolume by_ a v w : settles w (setVolume by_ a v w).
Proof. apply settles_same; by wsimpl. Qed.

Lemma settles_updElement a f w : settles w (updElement a f w).
Proof. apply settles_same; by wsimpl. Qed.

Lemma settles_invokeOnComplete cb a w : settles w (invokeOnComplete cb a w).
Proof.
  destruct cb; simpl; [apply settles_refl|].
  eapply settles_trans; [|apply settles_cleanup].
  apply settles_same; by wsimpl.
Qed.

Lemma settles_applyFade a tgt d cb w : settles w (applyFade a tgt d cb w).
Proof.
  unfold applyFade. destruct (Qle_bool d 0).
  - eapply settles_trans; [apply settles_setVolume | apply settles_invokeOnComplete].
  - destruct (fadeIntervalRef w); apply settles_same; by wsimpl.
Qed.

Lemma settles_fadeTick t w : settles w (fadeTick t w).
Proof.
  unfold fadeTick. destruct (timers w !! t) as [[f|]|]; try apply settles_refl.
  destruct (steps <=? _)%nat.
  - eapply settles_trans; [|apply settles_invokeOnComplete].
    destruct (fadeIntervalRef _); apply settles_same; by wsimpl.
  - apply settles_same; by wsimpl.
Qed.

Lemma settles_handleTimeUpdate cfg a w : settles w (handleTimeUpdate cfg a w).
Proof.
  unfold handleTimeUpdate. destruct (stopAt cfg) as [s|]; [|apply settles_refl].
  destruct (negb _); [apply settles_refl|].
  destruct (Qle_bool s _).
  - eapply settles_trans; [apply settles_pause | apply settles_cleanup].
  - destruct (_ && _); [apply settles_applyFade | apply settles_refl].
Qed.

Lemma settles_handleEnded cfg a w : settles w (handleEnded cfg a w).
Proof.
  unfold handleEnded. destruct (_ && _); [apply settles_cleanup | apply settles_refl].
Qed.

Lemma settles_handleError w : settles w (handleError w).
Proof.
  unfold handleError. eapply settles_trans; [|apply settles_cleanup].
  by apply settles_same.
Qed.

Lemma settles_scheduleNextPlay cfg r w : settles w (scheduleNextPlay cfg r w).
Proof. by apply settles_same. Qed.

Lemma settles_stopRandomPlayback w : settles w (stopRandomPlayback w).
Proof.
  unfold stopRandomPlayback. destruct (intervalRef w); by apply settles_same.
Qed.

Lemma settles_startRandomPlayback cfg r w : settles w (startRandomPlayback cfg r w).
Proof.
  unfold startRandomPlayback. destruct (negb _); [apply settles_refl|].
  destruct (intervalRef w); by apply settles_same.
Qed.

Lemma settles_adjustVolume v w : settles w (snd (adjustVolume v w)).
Proof.
  unfold adjustVolume. simpl. destruct (audioRef w) eqn:E; apply settles_same; by wsimpl.
Qed.

Lemma startSession_Newest cfg fault w0 : Newest (startSession cfg fault w0).
Proof.
  unfold startSession. destruct fault as [s|].
  - rewrite tryBody_fault. unfold Newest. by rewrite cleanup_audioRef.
  - rewrite tryBody_no_fault, sessionBody_sessionPlaying.
    assert (H4 : Newest (sessionPlaying cfg w0)).
    { unfold Newest. by rewrite sessionPlaying_audioRef, sessionPlaying_length. }
    destruct (Qpositive _); [|exact H4].
    eapply settles_Newest; [exact H4 | apply settles_applyFade].
Qed.

Lemma playSoundEffect_Newest cfg fault w :
  Newest w → Newest (worldOf (playSoundEffect cfg fault w)).
Proof.
  intros HN. destruct (isMountedRef w) eqn:E.
  - rewrite playSoundEffect_mounted by done. apply startSession_Newest.
  - by rewrite playSoundEffect_unmounted.
Qed.

Lemma step_Newest cfg act w : Newest w → Newest (step cfg act w).
Proof.
  intros HN. destruct act; simpl.
  - by apply playSoundEffect_Newest.
  - eapply settles_Newest; [done | apply settles_cleanup].
  - eapply settles_Newest; [done | apply settles_startRandomPlayback].
  - eapply settles_Newest; [done | apply settles_stopRandomPlayback].
  - eapply settles_Newest; [done | apply settles_adjustVolume].
  - destruct (hasListeners a w); [|done].
    eapply settles_Newest; [done|].
    eapply settles_trans; [apply settles_updElement | apply settles_handleTimeUpdate].
  - destruct (hasListeners a w); [|done].
    eapply settles_Newest; [done | apply settles_handleEnded].
  - destruct (hasListeners a w); [|done].
    eapply settles_Newest; [done | apply settles_handleError].
  - destruct (hasListeners a w); [|done].
    eapply settles_Newest; [done | apply settles_handleError].
  - eapply settles_Newest; [done | apply settles_fadeTick].
  - unfold randomTimeoutFired. destruct (timers w !! t) as [[|]|]; try done.
    set (w1 := set_timers _ w). destruct (isMountedRef w1); [|done].
    eapply settles_Newest; [|apply settles_scheduleNextPlay].
    by apply playSoundEffect_Newest.
  - unfold unmount. eapply settles_Newest; [done|].
    eapply settles_trans; [apply settles_stopRandomPlayback|].
    eapply settles_trans; [|apply settles_cleanup]. by apply settles_same.
Qed.

Lemma run_Newest cfg acts w : Newest w → Newest (run cfg acts w).
Proof.
  revert w. induction acts as [|act acts IH]; intros w HN; simpl; [done|].
  by apply IH, step_Newest.
Qed.

Lemma mountEffects_Newest cfg fault r :
  Newest (worldOf (mountEffects cfg fault r (initialWorld cfg))).
Proof.
  assert (H0 : Newest (preloadEffect cfg (initialWorld cfg))).
  { unfold preloadEffect. by destruct (preload cfg). }
  assert (HR : ∀ w, Newest w → Newest (randomEffect cfg r w)).
  { intros w Hw. unfold randomEffect. destruct (playRandomly cfg);
      (eapply settles_Newest; [done|]);
      [apply settles_startRandomPlayback | apply settles_stopRandomPlayback]. }
  unfold mountEffects, bind, exec, autoplayEffect, ret.
  destruct (autoplay cfg); [|by apply HR].
  rewrite playSoundEffect_returns. by apply HR, playSoundEffect_Newest.
Qed.

(** C9. Stale end-of-track guard.  The 'ended' listener of a session
    changes nothing unless the element that fired it is the one [audioRef]
    holds; and in every world the controller can reach, an 'ended' event
    from an element that is not the newest one, that is from a session a
    later [play()] has superseded, leaves the world as it is, the later
    session included. *)
Theorem ended_from_superseded_session_ignored url options fault r acts a :
  let cfg := destructure url options in
  let w := run cfg acts (worldOf (useSoundEffect url options fault r)) in
  S a < length (audios w) →
  audioRef w ≠ Some a
  ∧ step cfg (FireEnded a) w = w
  ∧ ∀ w' a', audioRef w' = Some a' ∨ handleEnded cfg a' w' = w'.
Proof.
  intros cfg w Hsup.
  assert (HN : Newest w).
  { apply run_Newest. rewrite useSoundEffect_world. apply mountEffects_Newest. }
  assert (Hne : audioRef w ≠ Some a).
  { unfold Newest in HN. intros E. rewrite E in HN. lia. }
  split; [done|]. split.
  - simpl. destruct (hasListeners a w); [|done].
    unfold handleEnded. by rewrite bool_decide_eq_false_2.
  - intros w' a'. unfold handleEnded.
    destruct (decide (audioRef w' = Some a')) as [E|E]; [by left | right].
    by rewrite bool_decide_eq_false_2.
Qed.

Lemma ended_from_superseded_session_ignored_witness :
  let cfg := destructure "a.mp3" (mkOptions None None None None None None None None None None None) in
  let w := run cfg [CallPlay None; CallPlay None]
             (worldOf (useSoundEffect "a.mp3"
                (mkOptions None None None None None None None None None None None)
                None (1#2))) in
  S 1 < length (audios w)
  ∧ audioRef w = Some 2
  ∧ isLive w 2 = true
  ∧ step cfg (FireEnded 1) w = w.
Proof.
  split; [vm_compute; lia|]. split; [reflexivity|]. split; [reflexivity|].
  apply (ended_from_superseded_session_ignored "a.mp3"
           (mkOptions None None None None None None None None None None None)
           None (1#2) [CallPlay None; CallPlay None] 1).
  vm_compute; lia.
Defined.

(** ** Errors of the playback primitive *)

(** C5. [play()] never throws and returns no value: whatever the host
    does inside the [try] block, the completion is [Normal tt].  A load
    error ('error' event) and a rejected [audio.play()] are handled where
    they occur by a logged teardown: afterwards the session is torn down,
    the playing flag is clear and the session's element is paused.  A
    synchronous exception of the host ends the same way. *)
Theorem playSoundEffect_never_throws cfg fault w :
  (∃ w', playSoundEffect cfg fault w = Normal tt w')
  ∧ handleError w = cleanup (log ConsoleError w)
  ∧ handlePlayRejected w = cleanup (log ConsoleError w)
  ∧ tornDown (handleError w) ∧ tornDown (handlePlayRejected w)
  ∧ isPlaying (handleError w) = false ∧ isPlaying (handlePlayRejected w) = false
  ∧ match audioRef w with
    | Some a => isLive (handleError w) a = false
                ∧ isLive (handlePlayRejected w) a = false
    | None => True
    end
  ∧ ∀ s, if isMountedRef w
         then tornDown (worldOf (playSoundEffect cfg (Some s) w))
         else worldOf (playSoundEffect cfg (Some s) w) = w.
Proof.
  split; [eexists; apply playSoundEffect_returns|].
  split; [done|]. split; [done|].
  split; [apply cleanup_tornDown|]. split; [apply cleanup_tornDown|].
  split; [apply cleanup_isPlaying|]. split; [apply cleanup_isPlaying|].
  split.
  - destruct (audioRef w) as [a|] eqn:E; [|done].
    unfold handlePlayRejected, handleError. rewrite isLive_cleanup. simpl.
    rewrite E, bool_decide_eq_true_2 by done. by rewrite andb_false_r.
  - intros s. destruct (isMountedRef w) eqn:E.
    + rewrite playSoundEffect_mounted by done. simpl. unfold startSession.
      destruct s; unfold tryBody, bind, exec, call, gets, mayThrow, ret; simpl;
        apply cleanup_tornDown.
    + by rewrite playSoundEffect_unmounted.
Qed.

(** ** adjustVolume *)

(** C8. [adjustVolume(v)] returns [Math.min(1, Math.max(0, v))], which
    lies in [0,1]; [adjustVolume(1.5)] is 1 and [adjustVolume(-0.2)] is 0;
    and the value returned is the [currentVolume] state afterwards (and the
    volume of the element in [audioRef], when there is one). *)
Theorem adjustVolume_clamps v w :
  fst (adjustVolume v w) = Qmin 1 (Qmax 0 v)
  ∧ in01 (fst (adjustVolume v w))
  ∧ fst (adjustVolume (3 # 2) w) = 1%Q
  ∧ fst (adjustVolume (- (1 # 5)) w) = 0%Q
  ∧ currentVolume (snd (adjustVolume v w)) = fst (adjustVolume v w)
  ∧ match audioRef w with
    | Some a => audios (snd (adjustVolume v w)) !! a
                = el_set_volume (fst (adjustVolume v w)) <$> audios w !! a
    | None => audios (snd (adjustVolume v w)) = audios w
    end.
Proof.
  split; [done|]. split; [apply clamp01_in01|]. split; [done|]. split; [done|].
  split.
  - unfold adjustVolume. simpl. destruct (audioRef w); by wsimpl.
  - unfold adjustVolume. simpl. destruct (audioRef w) as [a|] eqn:E; simpl; [|done].
    rewrite updElement_lookup. by rewrite decide_True.
Qed.

(** ** Construction *)

(** The configurations the specification calls invalid: the fade-out does
    not fit in the crop window, or the interval bounds are reversed. *)
Definition invalidConfiguration (cfg : Config) : Prop :=
  match stopAt cfg with
  | Some s => (s - startFrom cfg < transitionEnd cfg)%Q
  | None => False
  end
  ∨ (maxInterval cfg < minInterval cfg)%Q.

Definition invalidOptions : SoundEffectOptions :=
  mkOptions None None None (Some true) (Some 10%Q) (Some 5%Q) None
            (Some 10%Q) (Some 30%Q) None (Some 50%Q).

(** C4, as stated, fails: an invalid configuration is accepted. *)
Lemma invalid_configuration_is_accepted :
  ¬ (∀ url options fault r,
       invalidConfiguration (destructure url options) →
       ∃ w, useSoundEffect url options fault r = Throw w).
Proof.
  intros H. destruct (H "a.mp3" invalidOptions None (1#2)) as [w Hw].
  - left. reflexivity.
  - rewrite useSoundEffect_world in Hw. discriminate.
Qed.

(** C4, amended.  Construction validates nothing: for every options
    object, valid or not, the hook returns normally, and the callbacks
    close over the options exactly as given (defaults filled in, nothing
    clamped or rejected). *)
Theorem useSoundEffect_never_rejects url options fault r :
  (∃ w, useSoundEffect url options fault r = Normal (destructure url options) w)
  ∧ transitionEnd (destructure url options) = default 0%Q (opt_transitionEnd options)
  ∧ stopAt (destructure url options) = opt_stopAt options
  ∧ startFrom (destructure url options) = default 0%Q (opt_startFrom options)
  ∧ minInterval (destructure url options) = default 5000%Q (opt_minInterval options)
  ∧ maxInterval (destructure url options) = default 15000%Q (opt_maxInterval options).
Proof.
  split; [eexists; apply useSoundEffect_world | done].
Qed.

(** ** Manual stop and the random schedule *)

Definition randomOptions : SoundEffectOptions :=
  mkOptions None None None (Some true) None None None None None None None.

(** C2, evaluated.  With [playRandomly] on, construction arms timeout 1
    for the next random play.  A manual [stop()] disarms it and clears
    [intervalRef], so the timeout never fires and no scheduled play
    follows; without the [stop()] the timeout fires, plays and arms
    timeout 2.  The teardown at the natural end of that play disarms
    timeout 2 in the same way. *)
Theorem stop_cancels_random_schedule :
  let cfg := destructure "a.mp3" randomOptions in
  let w := worldOf (useSoundEffect "a.mp3" randomOptions None (1#2)) in
  intervalRef w = Some 1
  ∧ timers w !! 1 = Some (RandomTimeout 10000)
  ∧ intervalRef (step cfg CallStop w) = None
  ∧ timers (step cfg CallStop w) !! 1 = None
  ∧ step cfg (FireTimeout 1 None (1#2)) (step cfg CallStop w) = step cfg CallStop w
  ∧ isPlaying (step cfg (FireTimeout 1 None (1#2)) w) = true
  ∧ timers (step cfg (FireTimeout 1 None (1#2)) w) !! 2 = Some (RandomTimeout 10000)
  ∧ timers (run cfg [FireTimeout 1 None (1#2); FireEnded 1] w) !! 2 = None.
Proof. vm_compute. repeat split. Qed.

(** ** The stop-at tick *)

Lemma onCompleteCount_app tr1 tr2 :
  onCompleteCount (tr1 ++ tr2) = onCompleteCount tr1 + onCompleteCount tr2.
Proof. unfold onCompleteCount. by rewrite filter_app, length_app. Qed.

Lemma onCompleteCount_cleanupCalls w : onCompleteCount (cleanupCalls w) = 0.
Proof.
  unfold cleanupCalls.
  by destruct (audioRef w), (intervalRef w), (fadeIntervalRef w).
Qed.

(** A fade-out (a fade with the pause-and-teardown callback) on [a] is
    running. *)
Definition fadeOutInProgress (a : AudioId) (w : World) : Prop :=
  ∃ t f, fadeIntervalRef w = Some t ∧ timers w !! t = Some (FadeInterval f)
         ∧ fade_audio f = a ∧ fade_onComplete f = PauseAndCleanup.

Definition cropOptions : SoundEffectOptions :=
  mkOptions None None None None None None None (Some 10%Q) (Some 30%Q) None (Some 5%Q).

(** The world after [play()] and a position update at 26 s: the fade-out
    towards 30 s has started on element 1. *)
Definition fadingOut : World :=
  run (destructure "a.mp3" cropOptions) [CallPlay None; FireTimeUpdate 1 26]
      (worldOf (useSoundEffect "a.mp3" cropOptions None (1#2))).

Lemma fadingOut_fadeOutInProgress : fadeOutInProgress 1 fadingOut.
Proof.
  exists 1, (mkFade 1 1 ((0 - 1) / inject_Z (Z.of_nat steps)) 0 0 PauseAndCleanup).
  by vm_compute.
Qed.

(** C3, as stated, fails: with a fade-out in progress, a position update
    at or past [stopAt] does stop the session. *)
Lemma stopAt_tick_interrupts_fade_out :
  ¬ (∀ cfg a position w s,
       stopAt cfg = Some s → truthy (stopAt cfg) = true →
       Qpositive (transitionEnd cfg) = true →
       hasListeners a w = true → fadeOutInProgress a w →
       (s <= position)%Q →
       let w' := step cfg (FireTimeUpdate a position) w in
       audioRef w' = audioRef w ∧ isPlaying w' = isPlaying w
       ∧ isLive w' a = isLive w a).
Proof.
  intros H.
  destruct (H (destructure "a.mp3" cropOptions) 1 31%Q fadingOut 30%Q)
    as (_ & Hp & _); try reflexivity.
  - apply fadingOut_fadeOutInProgress.
  - by vm_compute.
  - vm_compute in Hp. discriminate.
Qed.

(** C3, amended.  For a session with [stopAt] configured, a position
    update at or past [stopAt] pauses the element and tears the session
    down at once, whether or not a fade is in progress: the fade timer is
    disarmed, so its interval callback does nothing any more and its
    completion callback is never invoked. *)
Theorem stopAt_tick_stops_at_once cfg a position w s :
  stopAt cfg = Some s → truthy (stopAt cfg) = true →
  hasListeners a w = true →
  (s <= position)%Q →
  let w' := step cfg (FireTimeUpdate a position) w in
  w' = cleanup (pause a (updElement a (el_set_currentTime position) w))
  ∧ tornDown w'
  ∧ isLive w' a = false
  ∧ onCompleteCount (trace w') = onCompleteCount (trace w)
  ∧ match fadeIntervalRef w with
    | Some t => timers w' !! t = None ∧ fadeTick t w' = w'
    | None => True
    end.
Proof.
  intros Hs Ht Hl Hle w'.
  assert (E : w' = cleanup (pause a (updElement a (el_set_currentTime position) w))).
  { subst w'. simpl. rewrite Hl. unfold handleTimeUpdate. rewrite Hs in *.
    rewrite Ht. simpl.
    assert (Hc : getCurrentTime a (updElement a (el_set_currentTime position) w)
                 = position).
    { unfold getCurrentTime, hasListeners in *. rewrite updElement_lookup.
      rewrite decide_True by done. by destruct (audios w !! a). }
    rewrite Hc. apply Qle_bool_iff in Hle. by rewrite Hle. }
  split; [done|]. rewrite E. split; [apply cleanup_tornDown|]. split.
  - rewrite isLive_cleanup. unfold pause.
    rewrite (isLive_same (updElement a (el_set_paused true)
                            (updElement a (el_set_currentTime position) w))) by done.
    rewrite isLive_paused. rewrite bool_decide_eq_true_2 by done.
    by rewrite andb_false_r.
  - split.
    + rewrite cleanup_trace. wsimpl.
      rewrite !onCompleteCount_app, onCompleteCount_cleanupCalls. simpl.
      unfold onCompleteCount at 2. simpl. lia.
    + destruct (fadeIntervalRef w) as [t|] eqn:Ef; [|done].
      assert (Hg : timers (cleanup (pause a (updElement a (el_set_currentTime position) w)))
                   !! t = None).
      { rewrite cleanup_timers. wsimpl. rewrite Ef. simpl. apply lookup_delete_eq. }
      split; [done|]. unfold fadeTick. by rewrite Hg.
Qed.

Lemma stopAt_tick_stops_at_once_witness :
  fadeOutInProgress 1 fadingOut
  ∧ isPlaying fadingOut = true
  ∧ tornDown (step (destructure "a.mp3" cropOptions) (FireTimeUpdate 1 31) fadingOut)
  ∧ onCompleteCount
      (trace (step (destructure "a.mp3" cropOptions) (FireTimeUpdate 1 31) fadingOut))
    = 0.
Proof.
  split; [apply fadingOut_fadeOutInProgress|]. split; [reflexivity|].
  destruct (stopAt_tick_stops_at_once (destructure "a.mp3" cropOptions) 1 31%Q
              fadingOut 30%Q) as (_ & Htd & _ & Hc & _).
  - reflexivity.
  - reflexivity.
  - reflexivity.
  - by vm_compute.
  - split; [exact Htd|]. rewrite Hc. reflexivity.
Defined.

(** ** Fades *)

(** [adjustVolume] called with each of [vs] in turn. *)
Definition adjustAll (vs : list Q) (w : World) : World :=
  fold_left (λ w v, snd (adjustVolume v w)) vs w.

(** A fade timer [t] firing [length vss] times, with the calls
    [adjustVolume(v)] for [v] in the i-th list made before the i-th tick. *)
Fixpoint fadeRun (t : TimerId) (vss : list (list Q)) (w : World) : World :=
  match vss with
  | [] => w
  | vs :: rest => fadeRun t rest (fadeTick t (adjustAll vs w))
  end.

(** [n] ticks with nothing in between. *)
Definition ticks (n : nat) (t : TimerId) (w : World) : World :=
  fadeRun t (replicate n []) w.

(** What tick number [j] of the fade [f] writes. *)
Definition fadeValue (f : FadeTimer) (j : nat) : Q :=
  if (steps <=? j)%nat then fade_targetVolume f else tickVolume f j.

(** How many invocations of [onComplete] a completed fade makes. *)
Definition callbackCalls (cb : FadeCallback) : nat :=
  match cb with NoCallback => 0 | PauseAndCleanup => 1 end.

(** The fade [f] is running on timer [t]. *)
Definition Armed (t : TimerId) (f : FadeTimer) (w : World) : Prop :=
  timers w !! t = Some (FadeInterval f)
  ∧ fadeIntervalRef w = Some t
  ∧ fade_audio f < length (audios w).

Lemma fadeWrites_app tr1 tr2 : fadeWrites (tr1 ++ tr2) = fadeWrites tr1 ++ fadeWrites tr2.
Proof. apply omap_app. Qed.

Lemma fadeWrites_cleanupCalls w : fadeWrites (cleanupCalls w) = [].
Proof.
  unfold cleanupCalls.
  by destruct (audioRef w), (intervalRef w), (fadeIntervalRef w).
Qed.

Lemma getVolume_updElement a b f w :
  (∀ el, el_volume (f el) = el_volume el) →
  getVolume a (updElement b f w) = getVolume a w.
Proof.
  intros Hf. unfold getVolume. rewrite updElement_lookup.
  destruct (decide (b = a)); [|done].
  destruct (audios w !! a); simpl; [apply Hf | done].
Qed.

Lemma getVolume_same a w w' : audios w' = audios w → getVolume a w' = getVolume a w.
Proof. unfold getVolume. by intros ->. Qed.

Lemma getVolume_setVolume by_ a v w :
  a < length (audios w) → getVolume a (setVolume by_ a v w) = v.
Proof.
  intros L. unfold getVolume, setVolume. simpl. rewrite updElement_lookup.
  rewrite decide_True by done.
  destruct (lookup_lt_is_Some_2 (audios w) a L) as [el E]. by rewrite E.
Qed.

Lemma getVolume_pause a b w : getVolume a (pause b w) = getVolume a w.
Proof.
  unfold pause. rewrite (getVolume_same a (updElement b (el_set_paused true) w)) by done.
  by apply getVolume_updElement.
Qed.

Lemma getVolume_cleanup a w : getVolume a (cleanup w) = getVolume a w.
Proof.
  unfold getVolume at 1. rewrite cleanup_audios.
  destruct (audioRef w) as [b|]; [|done].
  fold (getVolume a (updElement b (el_set_paused true) w)).
  by apply getVolume_updElement.
Qed.

(** *** adjustVolume leaves a running fade alone *)

Lemma adjustVolume_frame v w :
  let w' := snd (adjustVolume v w) in
  timers w' = timers w ∧ fadeIntervalRef w' = fadeIntervalRef w
  ∧ length (audios w') = length (audios w)
  ∧ fadeWrites (trace w') = fadeWrites (trace w)
  ∧ onCompleteCount (trace w') = onCompleteCount (trace w).
Proof.
  unfold adjustVolume. simpl. destruct (audioRef w) eqn:E; wsimpl; [|done].
  rewrite fadeWrites_app, onCompleteCount_app. simpl.
  rewrite app_nil_r. unfold onCompleteCount at 2. simpl.
  repeat split; try done; lia.
Qed.

Lemma adjustAll_frame vs w :
  let w' := adjustAll vs w in
  timers w' = timers w ∧ fadeIntervalRef w' = fadeIntervalRef w
  ∧ length (audios w') = length (audios w)
  ∧ fadeWrites (trace w') = fadeWrites (trace w)
  ∧ onCompleteCount (trace w') = onCompleteCount (trace w).
Proof.
  revert w. induction vs as [|v vs IH]; intros w; simpl; [done|].
  destruct (IH (snd (adjustVolume v w))) as (E1 & E2 & E3 & E4 & E5).
  destruct (adjustVolume_frame v w) as (F1 & F2 & F3 & F4 & F5).
  unfold adjustAll in *. simpl in *.
  repeat split; congruence.
Qed.

Lemma adjustAll_Armed vs t f w : Armed t f w → Armed t f (adjustAll vs w).
Proof.
  intros (H1 & H2 & H3). destruct (adjustAll_frame vs w) as (E1 & E2 & E3 & _).
  simpl in *. unfold Armed. by rewrite E1, E2, E3.
Qed.

(** *** One tick *)

Lemma fadeTick_intermediate t f w :
  Armed t f w → S (fade_currentStep f) < steps →
  let k := S (fade_currentStep f) in
  let w' := fadeTick t w in
  Armed t (fade_set_currentStep k f) w'
  ∧ trace w' = trace w ++ [SetVolume ByFade (fade_audio f) (tickVolume f k)]
  ∧ getVolume (fade_audio f) w' = tickVolume f k.
Proof.
  intros (H1 & H2 & H3) Hk k w'. subst w'. unfold fadeTick. rewrite H1.
  fold k. rewrite (proj2 (Nat.leb_gt _ _)) by (subst k; lia).
  split; [|split].
  - unfold Armed. wsimpl. rewrite lookup_insert_eq. by simpl.
  - by wsimpl.
  - by rewrite getVolume_setVolume.
Qed.

Lemma fadeTick_final t f w :
  Armed t f w → steps ≤ S (fade_currentStep f) →
  let w' := fadeTick t w in
  timers w' !! t = None
  ∧ fadeIntervalRef w' = None
  ∧ getVolume (fade_audio f) w' = fade_targetVolume f
  ∧ fadeWrites (trace w') = fadeWrites (trace w) ++ [fade_targetVolume f]
  ∧ onCompleteCount (trace w')
    = onCompleteCount (trace w) + callbackCalls (fade_onComplete f).
Proof.
  intros (H1 & H2 & H3) Hk w'. subst w'. unfold fadeTick. rewrite H1.
  rewrite (proj2 (Nat.leb_le _ _)) by lia.
  set (w1 := set_timers _ w).
  assert (Hr : fadeIntervalRef (setVolume ByFade (fade_audio f) (fade_targetVolume f) w1)
               = Some t) by (subst w1; by wsimpl).
  rewrite Hr.
  set (w3 := set_fadeIntervalRef None _).
  assert (T3 : timers w3 !! t = None) by (subst w3 w1; wsimpl; apply lookup_delete_eq).
  assert (V3 : getVolume (fade_audio f) w3 = fade_targetVolume f).
  { subst w3. rewrite (getVolume_same _ (setVolume ByFade (fade_audio f)
                                          (fade_targetVolume f) w1)) by done.
    apply getVolume_setVolume. by subst w1. }
  assert (R3 : trace w3 = trace w ++ [SetVolume ByFade (fade_audio f) (fade_targetVolume f);
                                       ClearInterval t]).
  { subst w3 w1. wsimpl. by rewrite <- app_assoc. }
  assert (F3 : fadeIntervalRef w3 = None) by done.
  clearbody w3.
  destruct (fade_onComplete f); cbn [invokeOnComplete callbackCalls].
  - rewrite R3, fadeWrites_app, onCompleteCount_app. repeat split; try done.
  - split.
    { rewrite cleanup_timers. wsimpl. rewrite F3.
      destruct (intervalRef w3) as [t'|]; simpl; [|done].
      destruct (decide (t' = t)) as [->|N]; [apply lookup_delete_eq|].
      by rewrite lookup_delete_ne. }
    split; [apply cleanup_fadeIntervalRef|].
    split.
    { rewrite getVolume_cleanup, getVolume_pause. exact V3. }
    rewrite cleanup_trace. wsimpl. rewrite R3.
    rewrite !fadeWrites_app, !onCompleteCount_app.
    rewrite fadeWrites_cleanupCalls, onCompleteCount_cleanupCalls. simpl.
    rewrite !app_nil_r. split; [done|].
    unfold onCompleteCount at 2 3 4. simpl. lia.
Qed.

Lemma fadeTick_disarmed t w : timers w !! t = None → fadeTick t w = w.
Proof. intros E. unfold fadeTick. by rewrite E. Qed.

(** *** A whole run *)

Lemma fadeValue_set_currentStep j f k :
  fadeValue (fade_set_currentStep j f) k = fadeValue f k.
Proof. reflexivity. Qed.

(** What a run of [length vss] ticks of a running fade does, whatever
    [adjustVolume] calls come in between: the values written are those of
    the tick numbers, computed from the fields the fade captured when it
    started. *)
Lemma fadeRun_spec t vss : ∀ f w,
  Armed t f w →
  fade_currentStep f + length vss ≤ steps →
  let k := fade_currentStep f in
  let n := length vss in
  let w' := fadeRun t vss w in
  fadeWrites (trace w') = fadeWrites (trace w) ++ map (fadeValue f) (seq (S k) n)
  ∧ (0 < n → getVolume (fade_audio f) w' = fadeValue f (k + n))
  ∧ (k + n < steps →
     Armed t (fade_set_currentStep (k + n) f) w'
     ∧ onCompleteCount (trace w') = onCompleteCount (trace w))
  ∧ (0 < n → k + n = steps →
     timers w' !! t = None ∧ fadeIntervalRef w' = None
     ∧ onCompleteCount (trace w')
       = onCompleteCount (trace w) + callbackCalls (fade_onComplete f)).
Proof.
  induction vss as [|vs rest IH]; intros f w HA Hn; simpl in *.
  - rewrite app_nil_r, Nat.add_0_r. repeat split; try lia; try done.
    + destruct HA as (? & ? & ?). by destruct f.
    + apply HA.
    + apply HA.
  - pose proof (adjustAll_Armed vs t f w HA) as HA'.
    destruct (adjustAll_frame vs w) as (_ & _ & _ & EW & EC). simpl in EW, EC.
    destruct (decide (S (fade_currentStep f) < steps)) as [Hlt|Hge].
    + destruct (fadeTick_intermediate t f _ HA' Hlt) as (HA2 & ET & EV).
      simpl in HA2, ET, EV.
      set (f' := fade_set_currentStep (S (fade_currentStep f)) f) in *.
      set (w2 := fadeTick t (adjustAll vs w)) in *.
      destruct (IH f' w2 HA2) as (IW & IV & IA & IF); [simpl; lia|].
      simpl in IW, IV, IA, IF.
      assert (EW2 : fadeWrites (trace w2)
                    = fadeWrites (trace w) ++ [fadeValue f (S (fade_currentStep f))]).
      { rewrite ET, fadeWrites_app, EW. simpl. f_equal. unfold fadeValue.
        by rewrite (proj2 (Nat.leb_gt _ _)) by lia. }
      assert (EC2 : onCompleteCount (trace w2) = onCompleteCount (trace w)).
      { rewrite ET, onCompleteCount_app, EC. unfold onCompleteCount at 2. simpl. lia. }
      replace (fade_currentStep f + S (length rest))
        with (S (fade_currentStep f) + length rest) by lia.
      split; [|split; [|split]].
      * rewrite IW, EW2, <- app_assoc. reflexivity.
      * intros _. destruct rest as [|vs' rest'].
        -- simpl. rewrite Nat.add_0_r. rewrite EV. unfold fadeValue.
           by rewrite (proj2 (Nat.leb_gt _ _)) by lia.
        -- apply IV. simpl. lia.
      * intros Hk. destruct (IA Hk) as [IA1 IA2]. split; [|congruence].
        destruct IA1 as (? & ? & ?). repeat split; try done.
      * intros _ Hk. destruct rest as [|vs' rest'].
        -- simpl in Hk. lia.
        -- destruct IF as (? & ? & ?); [simpl; lia | done |].
           repeat split; try done. simpl in *. congruence.
    + assert (rest = []) as -> by (destruct rest; [done | simpl in Hn; lia]).
      assert (Hk : S (fade_currentStep f) = steps) by (simpl in Hn; lia).
      destruct (fadeTick_final t f _ HA') as (FT & FR & FV & FW & FC); [lia|].
      simpl in *. rewrite Nat.add_1_r.
      assert (Hv : fadeValue f (S (fade_currentStep f)) = fade_targetVolume f).
      { unfold fadeValue. by rewrite (proj2 (Nat.leb_le _ _)) by lia. }
      split; [|split; [|split]].
      * rewrite FW, EW, Hv. reflexivity.
      * intros _. by rewrite FV, Hv.
      * intros ?. lia.
      * intros _ _. repeat split; try done. congruence.
Qed.

Lemma fadeRun_app t vss1 vss2 w :
  fadeRun t (vss1 ++ vss2) w = fadeRun t vss2 (fadeRun t vss1 w).
Proof. revert w. induction vss1 as [|vs vss1 IH]; intros w; simpl; [done | apply IH]. Qed.

Lemma ticks_add n m t w : ticks (n + m) t w = ticks m t (ticks n t w).
Proof. unfold ticks. by rewrite replicate_add, fadeRun_app. Qed.

Lemma ticks_disarmed n t w : timers w !! t = None → ticks n t w = w.
Proof.
  intros E. unfold ticks. induction n as [|n IH]; simpl; [done|].
  by rewrite fadeTick_disarmed.
Qed.

Lemma Qpositive_lt d : (0 < d)%Q → Qle_bool d 0 = false.
Proof.
  intros H. destruct (Qle_bool d 0) eqn:E; [|done].
  apply Qle_bool_iff in E. exfalso. by apply (Qlt_not_le 0 d).
Qed.

(** A timed fade arms a fresh timer that captures the volume the element
    has at that moment. *)
Lemma applyFade_timed a tgt d cb w :
  (0 < d)%Q → a < length (audios w) →
  let w0 := applyFade a tgt d cb w in
  Armed (nextTimer w)
        (mkFade a (getVolume a w)
                ((tgt - getVolume a w) / inject_Z (Z.of_nat steps))%Q tgt 0 cb) w0
  ∧ last (trace w0) = Some (SetInterval (nextTimer w) (stepDuration d))
  ∧ fadeWrites (trace w0) = fadeWrites (trace w)
  ∧ onCompleteCount (trace w0) = onCompleteCount (trace w).
Proof.
  intros Hd La w0. subst w0. unfold applyFade. rewrite Qpositive_lt by done.
  destruct (fadeIntervalRef w) as [t0|] eqn:E; unfold Armed; wsimpl;
    (split; [split; [by rewrite lookup_insert_eq | done]|]);
    (split; [by rewrite last_snoc|]);
    rewrite <- ?app_assoc, fadeWrites_app, onCompleteCount_app; simpl;
    rewrite app_nil_r; unfold onCompleteCount at 2; simpl; (split; [done | lia]).
Qed.

(** C6. Fade interpolation.  A fade of positive duration [d] on element
    [a], from its volume [s] at that moment to a target [tgt] in [0,1]
    (the only targets [applyFade] is called with, and the only ones the
    host's volume setter accepts), uses 50 steps and an interval of
    [d*1000/50] ms.  After tick [k], for [1 <= k < 50], the volume is
    [min(1, max(0, s + k*(tgt - s)/50))], the timer is still armed and no
    completion callback has run.  Tick 50 sets the volume to [tgt] itself
    and disarms the timer, so no further tick fires, and [onComplete],
    when one was passed, has been invoked once. *)
Theorem applyFade_interpolation a tgt d cb w :
  (0 < d)%Q → a < length (audios w) →
  (0 <= tgt)%Q → (tgt <= 1)%Q →
  let s := getVolume a w in
  let t := nextTimer w in
  let w0 := applyFade a tgt d cb w in
  steps = 50
  ∧ last (trace w0) = Some (SetInterval t (d * 1000 / 50)%Q)
  ∧ (∀ k, 1 ≤ k < 50 →
       (getVolume a (ticks k t w0)
        == Qmin 1 (Qmax 0 (s + inject_Z (Z.of_nat k) * (tgt - s) / 50)))%Q
       ∧ is_Some (timers (ticks k t w0) !! t)
       ∧ onCompleteCount (trace (ticks k t w0)) = onCompleteCount (trace w))
  ∧ getVolume a (ticks 50 t w0) = tgt
  ∧ timers (ticks 50 t w0) !! t = None
  ∧ fadeIntervalRef (ticks 50 t w0) = None
  ∧ onCompleteCount (trace (ticks 50 t w0))
    = onCompleteCount (trace w) + callbackCalls cb
  ∧ ∀ n, 50 ≤ n → ticks n t w0 = ticks 50 t w0.
Proof.
  intros Hd La _ _ s t w0.
  destruct (applyFade_timed a tgt d cb w Hd La) as (HA & HL & HW & HC).
  fold s t w0 in HA, HL, HW, HC.
  assert (H50 : getVolume a (ticks 50 t w0) = tgt
                ∧ timers (ticks 50 t w0) !! t = None
                ∧ fadeIntervalRef (ticks 50 t w0) = None
                ∧ onCompleteCount (trace (ticks 50 t w0))
                  = onCompleteCount (trace w) + callbackCalls cb).
  { pose proof (fadeRun_spec t (replicate 50 []) _ w0 HA) as H.
    cbn [fade_audio fade_currentStep fade_onComplete fade_targetVolume] in H.
    rewrite length_replicate in H.
    destruct H as (_ & HV & _ & HF); [unfold steps; lia|].
    destruct HF as (? & ? & HF); [lia | done |].
    unfold ticks. rewrite HV by lia. rewrite HF, HC.
    unfold fadeValue. cbn [fade_targetVolume]. auto. }
  destruct H50 as (H50v & H50t & H50r & H50c).
  split; [reflexivity|]. split; [exact HL|].
  split; [|split; [exact H50v|split; [exact H50t|split; [exact H50r|split; [exact H50c|]]]]].
  - intros k [Hk1 Hk2].
    pose proof (fadeRun_spec t (replicate k []) _ w0 HA) as H.
    cbn [fade_audio fade_currentStep fade_onComplete fade_targetVolume] in H.
    rewrite length_replicate in H.
    destruct H as (_ & HV & HM & _); [unfold steps; lia|].
    destruct HM as [(HT & _ & _) HO]; [unfold steps; lia|].
    split; [|split].
    + unfold ticks. rewrite HV by lia. unfold fadeValue.
      rewrite (proj2 (Nat.leb_gt _ _)) by (unfold steps; lia).
      unfold tickVolume.
      apply (clamp01_wd _ (s + inject_Z (Z.of_nat k) * (tgt - s) / 50)).
      cbn [fade_startVolume fade_volumeStep].
      change (inject_Z (Z.of_nat steps)) with 50%Q. rewrite Nat.add_0_l. field.
    + unfold ticks. by rewrite HT.
    + unfold ticks. by rewrite HO.
  - intros n Hn.
    replace n with (50 + (n - 50)) by lia.
    rewrite ticks_add. by apply ticks_disarmed.
Qed.

Definition preloaded : World :=
  preloadEffect (destructure "a.mp3" cropOptions)
                (initialWorld (destructure "a.mp3" cropOptions)).

Lemma applyFade_interpolation_witness :
  (0 < 2)%Q ∧ 0 < length (audios preloaded) ∧ (0 <= 0)%Q ∧ (0 <= 1)%Q
  ∧ (getVolume 0 (ticks 25 1 (applyFade 0 0 2 PauseAndCleanup preloaded)) == 1 # 2)%Q
  ∧ getVolume 0 (ticks 50 1 (applyFade 0 0 2 PauseAndCleanup preloaded)) = 0%Q
  ∧ onCompleteCount (trace (ticks 60 1 (applyFade 0 0 2 PauseAndCleanup preloaded))) = 1.
Proof.
  assert (H1 : (0 < 2)%Q) by reflexivity.
  assert (H2 : 0 < length (audios preloaded)) by (vm_compute; lia).
  assert (H3 : (0 <= 0)%Q) by (by vm_compute).
  assert (H4 : (0 <= 1)%Q) by (by vm_compute).
  destruct (applyFade_interpolation 0 0%Q 2%Q PauseAndCleanup preloaded H1 H2 H3 H4)
    as (_ & _ & Hk & Hv & _ & _ & Hc & Hn).
  split; [exact H1|]. split; [exact H2|]. split; [exact H3|]. split; [exact H4|].
  split; [|split].
  - destruct (Hk 25) as (E & _); [lia|]. rewrite E. reflexivity.
  - exact Hv.
  - rewrite Hn by lia. rewrite Hc. reflexivity.
Defined.

(** C10. Fade noninterference.  Tick number [j] of a running fade (its
    target in [0,1], as for every fade the controller starts) writes
    [min(1, max(0, startVolume + volumeStep * j))] for [j < 50] and the
    target at [j = 50], where [startVolume] and [volumeStep] are the values
    [applyFade] captured when the fade started: the element's volume at
    that moment and [(target - startVolume)/50].  It is not an increment on
    the element's current volume.  So two runs of the same fade over the
    same number of ticks that differ only in the [adjustVolume] calls made
    between the ticks write the same sequence of volumes and end with the
    same volume on the element. *)
Theorem fade_ignores_adjustVolume t f w vss vss' :
  Armed t f w →
  (0 <= fade_targetVolume f)%Q → (fade_targetVolume f <= 1)%Q →
  length vss = length vss' →
  0 < length vss →
  fade_currentStep f + length vss ≤ steps →
  fadeWrites (trace (fadeRun t vss w))
  = fadeWrites (trace w)
    ++ map (λ j, if (50 <=? j)%nat then fade_targetVolume f
                 else Qmin 1 (Qmax 0 (fade_startVolume f
                                      + fade_volumeStep f * inject_Z (Z.of_nat j)))%Q)
           (seq (S (fade_currentStep f)) (length vss))
  ∧ fadeWrites (trace (fadeRun t vss w)) = fadeWrites (trace (fadeRun t vss' w))
  ∧ getVolume (fade_audio f) (fadeRun t vss w)
    = getVolume (fade_audio f) (fadeRun t vss' w)
  ∧ getVolume (fade_audio f) (fadeRun t vss w)
    = (let j := fade_currentStep f + length vss in
       if (50 <=? j)%nat then fade_targetVolume f
       else Qmin 1 (Qmax 0 (fade_startVolume f
                            + fade_volumeStep f * inject_Z (Z.of_nat j)))%Q)
  ∧ ∀ a tgt d cb w0,
      (0 < d)%Q → a < length (audios w0) → (0 <= tgt)%Q → (tgt <= 1)%Q →
      Armed (nextTimer w0)
            (mkFade a (getVolume a w0) ((tgt - getVolume a w0) / 50)%Q tgt 0 cb)
            (applyFade a tgt d cb w0).
Proof.
  intros HA _ _ Hl Hn Hs.
  destruct (fadeRun_spec t vss f w HA Hs) as (HW & HV & _).
  destruct (fadeRun_spec t vss' f w HA) as (HW' & HV' & _); [lia|].
  cbv zeta in HW, HV, HW', HV'.
  split; [exact HW|]. split; [by rewrite HW, HW', Hl|].
  split; [rewrite HV, HV' by lia; by rewrite Hl|].
  split; [by apply HV|].
  intros a tgt d cb w0 Hd La _ _.
  by destruct (applyFade_timed a tgt d cb w0 Hd La) as (HA0 & _).
Qed.

(** The fade-out of [fadingOut]: 2 of its 50 ticks, once undisturbed and
    once with volume adjustments in between. *)
Lemma fade_ignores_adjustVolume_witness :
  Armed 1 (mkFade 1 1 ((0 - 1) / inject_Z (Z.of_nat steps)) 0 0 PauseAndCleanup) fadingOut
  ∧ fadeWrites (trace (fadeRun 1 [[3 # 10]; [7 # 10; 1 # 5]] fadingOut))
    = [(49 # 50)%Q; (48 # 50)%Q]
  ∧ fadeWrites (trace (fadeRun 1 [[3 # 10]; [7 # 10; 1 # 5]] fadingOut))
    = fadeWrites (trace (fadeRun 1 [[]; []] fadingOut))
  ∧ getVolume 1 (fadeRun 1 [[3 # 10]; [7 # 10; 1 # 5]] fadingOut)
    = getVolume 1 (fadeRun 1 [[]; []] fadingOut).
Proof.
  assert (HA : Armed 1 (mkFade 1 1 ((0 - 1) / inject_Z (Z.of_nat steps)) 0 0
                               PauseAndCleanup) fadingOut).
  { split; [by vm_compute|]. split; [by vm_compute|]. vm_compute. lia. }
  split; [exact HA|]. split; [by vm_compute|].
  destruct (fade_ignores_adjustVolume 1 _ fadingOut
              [[3 # 10]; [7 # 10; 1 # 5]] [[]; []] HA) as (_ & HW & HV & _).
  - by vm_compute.
  - by vm_compute.
  - reflexivity.
  - simpl. lia.
  - cbn [fade_currentStep length]. unfold steps. lia.
  - split; [exact HW | exact HV].
Defined.

(** ** Range of the fader's writes *)

Lemma tickVolume_in01 f k : in01 (tickVolume f k).
Proof. apply clamp01_in01. Qed.

(** Every armed fade aims at a volume in [0,1] and every volume the fader
    has written so far lies in [0,1]. *)
Definition TargetsOK (m : gmap nat Timer) : Prop :=
  ∀ t f, m !! t = Some (FadeInterval f) → in01 (fade_targetVolume f).

Definition WritesOK (tr : list HostCall) : Prop := Forall in01 (fadeWrites tr).

Definition FadeOK (w : World) : Prop := TargetsOK (timers w) ∧ WritesOK (trace w).

(** A call other than a volume write of the fader outside [0,1]. *)
Definition callOK (c : HostCall) : Prop :=
  match c with SetVolume ByFade _ v => in01 v | _ => True end.

Lemma WritesOK_snoc tr c : WritesOK tr → callOK c → WritesOK (tr ++ [c]).
Proof.
  unfold WritesOK. intros H Hc. rewrite fadeWrites_app. apply Forall_app. split; [done|].
  destruct c as [| | |[] ? ?| | | | | |]; simpl; auto.
Qed.

Lemma WritesOK_app tr tr' : WritesOK tr → Forall callOK tr' → WritesOK (tr ++ tr').
Proof.
  intros H H'. revert tr H. induction H' as [|c tr' Hc _ IH]; intros tr H.
  - by rewrite app_nil_r.
  - replace (tr ++ c :: tr') with ((tr ++ [c]) ++ tr') by (by rewrite <- app_assoc).
    by apply IH, WritesOK_snoc.
Qed.

Lemma TargetsOK_delete t m : TargetsOK m → TargetsOK (delete t m).
Proof.
  intros H t' f E. apply lookup_delete_Some in E as [_ E]. by apply (H t').
Qed.

Lemma TargetsOK_disarm ref m : TargetsOK m → TargetsOK (disarm ref m).
Proof. destruct ref; simpl; [apply TargetsOK_delete | done]. Qed.

Lemma TargetsOK_insert t tm m :
  TargetsOK m →
  match tm with FadeInterval f => in01 (fade_targetVolume f) | RandomTimeout _ => True end →
  TargetsOK (<[t := tm]> m).
Proof.
  intros H Htm t' f E. apply lookup_insert_Some in E as [[_ ->]|[_ E]]; [done|].
  by apply (H t').
Qed.

Lemma FadeOK_frame w w' :
  FadeOK w → timers w' = timers w → trace w' = trace w → FadeOK w'.
Proof. intros [H1 H2] E1 E2. split; [by rewrite E1 | by rewrite E2]. Qed.

Lemma FadeOK_log c w : callOK c → FadeOK w → FadeOK (log c w).
Proof. intros Hc [H1 H2]. split; [done | by apply WritesOK_snoc]. Qed.

Lemma FadeOK_updElement a f w : FadeOK w → FadeOK (updElement a f w).
Proof. intros H. apply (FadeOK_frame w); by wsimpl. Qed.

Lemma FadeOK_pause a w : FadeOK w → FadeOK (pause a w).
Proof. intros H. unfold pause. by apply FadeOK_log, FadeOK_updElement. Qed.

Lemma FadeOK_hostPlay a w : FadeOK w → FadeOK (hostPlay a w).
Proof. intros H. unfold hostPlay. by apply FadeOK_log, FadeOK_updElement. Qed.

Lemma FadeOK_setVolume by_ a v w :
  callOK (SetVolume by_ a v) → FadeOK w → FadeOK (setVolume by_ a v w).
Proof. intros Hc H. unfold setVolume. by apply FadeOK_log, FadeOK_updElement. Qed.

Lemma FadeOK_clearTimeout t w : FadeOK w → FadeOK (clearTimeout t w).
Proof.
  intros [H1 H2]. unfold clearTimeout. apply FadeOK_log; [done|].
  split; [by apply TargetsOK_delete | done].
Qed.

Lemma FadeOK_clearInterval t w : FadeOK w → FadeOK (clearInterval t w).
Proof.
  intros [H1 H2]. unfold clearInterval. apply FadeOK_log; [done|].
  split; [by apply TargetsOK_delete | done].
Qed.

Lemma FadeOK_armTimer tm w :
  match tm with FadeInterval f => in01 (fade_targetVolume f) | RandomTimeout _ => True end →
  FadeOK w → FadeOK (snd (armTimer tm w)).
Proof. intros Htm [H1 H2]. split; [by apply TargetsOK_insert | done]. Qed.

Lemma FadeOK_cleanup w : FadeOK w → FadeOK (cleanup w).
Proof.
  intros [H1 H2]. split.
  - rewrite cleanup_timers. by do 2 apply TargetsOK_disarm.
  - rewrite cleanup_trace. apply WritesOK_app; [done|]. unfold cleanupCalls.
    destruct (audioRef w), (intervalRef w), (fadeIntervalRef w);
      repeat constructor.
Qed.

Lemma FadeOK_invokeOnComplete cb a w : FadeOK w → FadeOK (invokeOnComplete cb a w).
Proof.
  intros H. destruct cb; simpl; [done|].
  by apply FadeOK_cleanup, FadeOK_pause, FadeOK_log.
Qed.

Lemma FadeOK_applyFade a tgt d cb w :
  in01 tgt → FadeOK w → FadeOK (applyFade a tgt d cb w).
Proof.
  intros Ht H. unfold applyFade. destruct (Qle_bool d 0).
  - by apply FadeOK_invokeOnComplete, FadeOK_setVolume.
  - set (w1 := match fadeIntervalRef w with Some t => clearInterval t w | None => w end).
    assert (H1 : FadeOK w1).
    { subst w1. destruct (fadeIntervalRef w); [by apply FadeOK_clearInterval | done]. }
    clearbody w1.
    set (tm := FadeInterval _).
    assert (H2 : FadeOK (snd (armTimer tm w1))) by (by apply FadeOK_armTimer).
    change (FadeOK (set_fadeIntervalRef (Some (nextTimer w1))
                      (log (SetInterval (nextTimer w1) (stepDuration d))
                           (snd (armTimer tm w1))))).
    clearbody tm.
    eapply FadeOK_frame;
      [apply (FadeOK_log (SetInterval (nextTimer w1) (stepDuration d)) _ I H2)
      | done | done].
Qed.

Lemma FadeOK_fadeTick t w : FadeOK w → FadeOK (fadeTick t w).
Proof.
  intros H. unfold fadeTick. destruct (timers w !! t) as [[f|]|] eqn:E; try done.
  assert (Hf : in01 (fade_targetVolume f)) by (by apply (proj1 H t)).
  set (w1 := set_timers _ w).
  assert (H1 : FadeOK w1).
  { split; [|apply H]. subst w1. cbn [timers set_timers].
    apply TargetsOK_insert; [apply H | done]. }
  clearbody w1.
  destruct (steps <=? _)%nat.
  - apply FadeOK_invokeOnComplete.
    assert (H2 : FadeOK (setVolume ByFade (fade_audio f) (fade_targetVolume f) w1))
      by (by apply FadeOK_setVolume).
    destruct (fadeIntervalRef _) as [t'|]; [|done].
    eapply FadeOK_frame; [apply (FadeOK_clearInterval t' _ H2) | done | done].
  - apply FadeOK_setVolume; [apply tickVolume_in01 | done].
Qed.

Lemma in01_0 : in01 0.
Proof. by split. Qed.

Lemma FadeOK_handleTimeUpdate cfg a w : FadeOK w → FadeOK (handleTimeUpdate cfg a w).
Proof.
  intros H. unfold handleTimeUpdate. destruct (stopAt cfg) as [s|]; [|done].
  destruct (negb _); [done|]. destruct (Qle_bool s _).
  - by apply FadeOK_cleanup, FadeOK_pause.
  - destruct (_ && _); [|done]. apply FadeOK_applyFade; [apply in01_0 | done].
Qed.

Lemma FadeOK_handleError w : FadeOK w → FadeOK (handleError w).
Proof. intros H. by apply FadeOK_cleanup, FadeOK_log. Qed.

Lemma FadeOK_newAudio url w : FadeOK w → FadeOK (snd (newAudio url w)).
Proof. intros [H1 H2]. split; [done | by apply WritesOK_snoc]. Qed.

Lemma FadeOK_thrownAt cfg s w0 : FadeOK w0 → FadeOK (thrownAt cfg s w0).
Proof.
  intros H.
  assert (H1 : FadeOK (set_audioRef (Some (length (audios w0)))
                         (snd (newAudio (soundUrl cfg) w0)))).
  { eapply FadeOK_frame; [apply (FadeOK_newAudio (soundUrl cfg) _ H) | done | done]. }
  unfold thrownAt. destruct s; [done | done | by do 2 apply FadeOK_updElement |].
  apply FadeOK_updElement.
  eapply FadeOK_frame; [|apply eq_refl | apply eq_refl].
  apply FadeOK_setVolume; [done|]. by do 2 apply FadeOK_updElement.
Qed.

Lemma FadeOK_startSession cfg fault w0 : FadeOK w0 → FadeOK (startSession cfg fault w0).
Proof.
  intros H. unfold startSession. destruct fault as [s|].
  - rewrite tryBody_fault. by apply FadeOK_cleanup, FadeOK_log, FadeOK_thrownAt.
  - rewrite tryBody_no_fault, sessionBody_sessionPlaying.
    assert (H4 : FadeOK (sessionPlaying cfg w0))
      by (by apply FadeOK_hostPlay, FadeOK_thrownAt).
    destruct (Qpositive _); [|done].
    apply FadeOK_applyFade; [apply clamp01_in01 | done].
Qed.

Lemma FadeOK_playSoundEffect cfg fault w :
  FadeOK w → FadeOK (worldOf (playSoundEffect cfg fault w)).
Proof.
  intros H. destruct (isMountedRef w) eqn:E.
  - rewrite playSoundEffect_mounted by done. by apply FadeOK_startSession, FadeOK_cleanup.
  - by rewrite playSoundEffect_unmounted.
Qed.

Lemma FadeOK_scheduleNextPlay cfg r w : FadeOK w → FadeOK (scheduleNextPlay cfg r w).
Proof.
  intros H. unfold scheduleNextPlay.
  set (tm := RandomTimeout _).
  assert (H2 : FadeOK (snd (armTimer tm w))) by (by apply FadeOK_armTimer).
  eapply FadeOK_frame; [apply (FadeOK_log (SetTimeout (nextTimer w) (randomDelay cfg r)) _ I H2)
                       | done | done].
Qed.

Lemma FadeOK_stopRandomPlayback w : FadeOK w → FadeOK (stopRandomPlayback w).
Proof.
  intros H. unfold stopRandomPlayback. destruct (intervalRef w) as [t|]; [|done].
  eapply FadeOK_frame; [apply (FadeOK_clearTimeout t _ H) | done | done].
Qed.

Lemma FadeOK_startRandomPlayback cfg r w : FadeOK w → FadeOK (startRandomPlayback cfg r w).
Proof.
  intros H. unfold startRandomPlayback. destruct (negb _); [done|].
  apply FadeOK_scheduleNextPlay. by apply (FadeOK_stopRandomPlayback w).
Qed.

Lemma FadeOK_adjustVolume v w : FadeOK w → FadeOK (snd (adjustVolume v w)).
Proof.
  intros H. unfold adjustVolume. cbn [snd].
  assert (H1 : FadeOK (setCurrentVolume (clamp01 v) w)) by (by apply (FadeOK_frame w)).
  destruct (audioRef _); [by apply FadeOK_setVolume | done].
Qed.

Lemma FadeOK_step cfg act w : FadeOK w → FadeOK (step cfg act w).
Proof.
  intros H. destruct act; cbn [step].
  - by apply FadeOK_playSoundEffect.
  - by apply FadeOK_cleanup.
  - by apply FadeOK_startRandomPlayback.
  - by apply FadeOK_stopRandomPlayback.
  - by apply FadeOK_adjustVolume.
  - destruct (hasListeners a w); [|done].
    by apply FadeOK_handleTimeUpdate, FadeOK_updElement.
  - destruct (hasListeners a w); [|done]. unfold handleEnded.
    destruct (_ && _); [by apply FadeOK_cleanup | done].
  - destruct (hasListeners a w); [|done]. by apply FadeOK_handleError.
  - destruct (hasListeners a w); [|done]. by apply FadeOK_handleError.
  - by apply FadeOK_fadeTick.
  - unfold randomTimeoutFired. destruct (timers w !! t) as [[|]|]; try done.
    set (w1 := set_timers _ w).
    assert (H1 : FadeOK w1).
    { split; [|apply H]. subst w1. cbn [timers set_timers].
      apply TargetsOK_delete, H. }
    clearbody w1. destruct (isMountedRef w1); [|done].
    by apply FadeOK_scheduleNextPlay, FadeOK_playSoundEffect.
  - unfold unmount. apply FadeOK_cleanup.
    eapply FadeOK_frame; [apply (FadeOK_stopRandomPlayback w H) | done | done].
Qed.

Lemma FadeOK_run cfg acts w : FadeOK w → FadeOK (run cfg acts w).
Proof.
  revert w. induction acts as [|act acts IH]; intros w H; simpl; [done|].
  by apply IH, FadeOK_step.
Qed.

Lemma FadeOK_mountEffects cfg fault r :
  FadeOK (worldOf (mountEffects cfg fault r (initialWorld cfg))).
Proof.
  assert (Hi : FadeOK (initialWorld cfg)).
  { split; [intros t f E; cbn [initialWorld timers] in E; by rewrite lookup_empty in E
           | constructor]. }
  assert (H0 : FadeOK (preloadEffect cfg (initialWorld cfg))).
  { unfold preloadEffect. destruct (_ && _); [|done].
    eapply FadeOK_frame; [|apply eq_refl | apply eq_refl].
    apply FadeOK_updElement, FadeOK_setVolume; [done|].
    by apply FadeOK_newAudio. }
  assert (HR : ∀ w, FadeOK w → FadeOK (randomEffect cfg r w)).
  { intros w Hw. unfold randomEffect. destruct (playRandomly cfg);
      [by apply FadeOK_startRandomPlayback | by apply FadeOK_stopRandomPlayback]. }
  unfold mountEffects, bind, exec, autoplayEffect, ret.
  destruct (autoplay cfg); [|by apply HR].
  rewrite playSoundEffect_returns. by apply HR, FadeOK_playSoundEffect.
Qed.

Lemma fadeWrites_elem tr a v : SetVolume ByFade a v ∈ tr → v ∈ fadeWrites tr.
Proof.
  intros H. unfold fadeWrites. apply list_elem_of_omap.
  exists (SetVolume ByFade a v). by split.
Qed.

(** C7. Fader write clamping.  [applyFade] is a closure of the hook called
    with the target 0 (fade-out) or the clamped current volume (fade-in),
    whatever volume the caller configured or requested.  In every world
    the controller can reach, every volume the fader has written, the
    final write of a fade and the single write of a fade without duration
    included, lies in [0,1]; every armed fade aims at a target in [0,1];
    and each intermediate write is [min(1, max(0, ..))] of the
    interpolated value. *)
Theorem fader_writes_in_range url options fault r acts :
  let cfg := destructure url options in
  let w := run cfg acts (worldOf (useSoundEffect url options fault r)) in
  (∀ a v, SetVolume ByFade a v ∈ trace w → (0 <= v)%Q ∧ (v <= 1)%Q)
  ∧ Forall (λ v, (0 <= v)%Q ∧ (v <= 1)%Q) (fadeWrites (trace w))
  ∧ (∀ t f, timers w !! t = Some (FadeInterval f) →
            (0 <= fade_targetVolume f)%Q ∧ (fade_targetVolume f <= 1)%Q)
  ∧ ∀ f k, tickVolume f k
           = Qmin 1 (Qmax 0 (fade_startVolume f
                             + fade_volumeStep f * inject_Z (Z.of_nat k)))%Q
           ∧ (0 <= tickVolume f k)%Q ∧ (tickVolume f k <= 1)%Q.
Proof.
  intros cfg w.
  assert (H : FadeOK w).
  { apply FadeOK_run. rewrite useSoundEffect_world. apply FadeOK_mountEffects. }
  destruct H as [HT HW]. split; [|split; [exact HW|split; [exact HT|]]].
  - intros a v Hv. apply fadeWrites_elem in Hv.
    unfold WritesOK in HW. rewrite Forall_forall in HW. by apply HW.
  - intros f k. split; [reflexivity | apply tickVolume_in01].
Qed.

(** A volume of 1.5 is configured with a one-second fade-in: after
    [play()] and 50 ticks the fader has written 50 volumes, the last one
    being the target 1. *)
Lemma fader_writes_in_range_witness :
  let cfg := destructure "a.mp3"
               (mkOptions (Some (3 # 2)) None None None None None None None None
                          (Some 1%Q) None) in
  let w := run cfg (CallPlay None :: replicate 50 (FireInterval 1))
             (worldOf (useSoundEffect "a.mp3"
                (mkOptions (Some (3 # 2)) None None None None None None None None
                           (Some 1%Q) None) None (1#2))) in
  currentVolume w = (3 # 2)%Q
  ∧ length (fadeWrites (trace w)) = 50
  ∧ last (fadeWrites (trace w)) = Some 1%Q
  ∧ Forall (λ v, (0 <= v)%Q ∧ (v <= 1)%Q) (fadeWrites (trace w)).
Proof.
  intros cfg w. split; [by vm_compute|]. split; [by vm_compute|].
  split; [by vm_compute|].
  apply (fader_writes_in_range "a.mp3"
           (mkOptions (Some (3 # 2)) None None None None None None None None
                      (Some 1%Q) None) None (1#2)
           (CallPlay None :: replicate 50 (FireInterval 1))).
Defined.

(** * Further properties of the controller *)

(** ** Stopping *)

Lemma cleanup_tornDown_noop w : tornDown w → cleanup w = w.
Proof.
  intros (H1 & H2 & H3 & H4). unfold cleanup. rewrite H1, H2, H3.
  destruct w. simpl in *. by subst.
Qed.

(** [stop()] without a session is a no-op: no host call is made and no
    state changes; hence a second [stop()] right after a first one does
    nothing. *)
Theorem stop_without_session_is_noop w :
  tornDown w →
  stopSoundEffect w = w
  ∧ ∀ w0, stopSoundEffect (stopSoundEffect w0) = stopSoundEffect w0.
Proof.
  intros H. split; [by apply cleanup_tornDown_noop|].
  intros w0. apply cleanup_tornDown_noop, cleanup_tornDown.
Qed.

Lemma stop_without_session_is_noop_witness :
  tornDown (initialWorld (destructure "a.mp3" cropOptions))
  ∧ stopSoundEffect (initialWorld (destructure "a.mp3" cropOptions))
    = initialWorld (destructure "a.mp3" cropOptions).
Proof.
  assert (H : tornDown (initialWorld (destructure "a.mp3" cropOptions)))
    by (by repeat split).
  split; [exact H|]. by destruct (stop_without_session_is_noop _ H).
Defined.

(** ** The random delay *)

Lemma Qfloor_below (x : Q) (n : Z) : (x < inject_Z n)%Q → (Qfloor x < n)%Z.
Proof.
  intros H. rewrite Zlt_Qlt. eapply Qle_lt_trans; [apply Qfloor_le | exact H].
Qed.

(** With whole-millisecond bounds [minInterval <= maxInterval] and
    [Math.random()] in [0,1), the delay
    [Math.floor(Math.random() * (maxInterval - minInterval + 1)) + minInterval]
    is a whole number of milliseconds between the two bounds, inclusive. *)
Theorem randomDelay_in_range cfg r (kmin kmax : Z) :
  (minInterval cfg == inject_Z kmin)%Q →
  (maxInterval cfg == inject_Z kmax)%Q →
  (kmin <= kmax)%Z →
  (0 <= r)%Q → (r < 1)%Q →
  (minInterval cfg <= randomDelay cfg r)%Q
  ∧ (randomDelay cfg r <= maxInterval cfg)%Q
  ∧ ∃ k : Z, (randomDelay cfg r == inject_Z k)%Q.
Proof.
  intros Hmin Hmax Hk Hr0 Hr1. unfold randomDelay.
  set (x := (r * (maxInterval cfg - minInterval cfg + 1))%Q).
  assert (Hn : (maxInterval cfg - minInterval cfg + 1 == inject_Z (kmax - kmin + 1))%Q).
  { rewrite Hmin, Hmax. unfold Qeq, inject_Z. simpl. lia. }
  assert (Hpos : (0 <= inject_Z (kmax - kmin + 1))%Q).
  { change 0%Q with (inject_Z 0). rewrite <- Zle_Qle. lia. }
  assert (Hx0 : (0 <= x)%Q).
  { subst x. rewrite Hn. by apply Qmult_le_0_compat. }
  assert (Hx1 : (x < inject_Z (kmax - kmin + 1))%Q).
  { subst x. rewrite Hn.
    assert (Hp : (0 < inject_Z (kmax - kmin + 1))%Q).
    { change 0%Q with (inject_Z 0). rewrite <- Zlt_Qlt. lia. }
    rewrite <- (Qmult_1_l (inject_Z (kmax - kmin + 1))) at 2.
    by apply Qmult_lt_compat_r. }
  assert (Hf0 : (0 <= Qfloor x)%Z).
  { change 0%Z with (Qfloor 0). by apply Qfloor_resp_le. }
  assert (Hf1 : (Qfloor x < kmax - kmin + 1)%Z) by (by apply Qfloor_below).
  split; [|split].
  - rewrite Hmin, <- inject_Z_plus, <- Zle_Qle. lia.
  - rewrite Hmin, Hmax, <- inject_Z_plus, <- Zle_Qle. lia.
  - exists (Qfloor x + kmin)%Z. by rewrite Hmin, <- inject_Z_plus.
Qed.

Lemma randomDelay_in_range_witness :
  let cfg := destructure "a.mp3" randomOptions in
  (5000 <= randomDelay cfg (1 # 2))%Q ∧ (randomDelay cfg (1 # 2) <= 15000)%Q.
Proof.
  destruct (randomDelay_in_range (destructure "a.mp3" randomOptions) (1 # 2) 5000 15000)
    as (H1 & H2 & _).
  - reflexivity.
  - reflexivity.
  - lia.
  - by vm_compute.
  - reflexivity.
  - split; [exact H1 | exact H2].
Defined.

(** ** What the element-level primitives never touch *)

(** [w'] has the timers, the timer refs, the mounted flag and the volume
    state of [w]. *)
Definition sameCore (w w' : World) : Prop :=
  timers w' = timers w ∧ nextTimer w' = nextTimer w
  ∧ fadeIntervalRef w' = fadeIntervalRef w ∧ intervalRef w' = intervalRef w
  ∧ isMountedRef w' = isMountedRef w ∧ currentVolume w' = currentVolume w.

Lemma sameCore_refl w : sameCore w w.
Proof. by repeat split. Qed.

Lemma sameCore_trans w1 w2 w3 : sameCore w1 w2 → sameCore w2 w3 → sameCore w1 w3.
Proof.
  intros (A1 & A2 & A3 & A4 & A5 & A6) (B1 & B2 & B3 & B4 & B5 & B6).
  repeat split; congruence.
Qed.

Lemma sameCore_updElement a f w : sameCore w (updElement a f w).
Proof. repeat split; by wsimpl. Qed.
Lemma sameCore_log c w : sameCore w (log c w).
Proof. by repeat split. Qed.
Lemma sameCore_pause a w : sameCore w (pause a w).
Proof. repeat split; by wsimpl. Qed.
Lemma sameCore_hostPlay a w : sameCore w (hostPlay a w).
Proof. unfold hostPlay. repeat split; by wsimpl. Qed.
Lemma sameCore_setVolume by_ a v w : sameCore w (setVolume by_ a v w).
Proof. repeat split; by wsimpl. Qed.
Lemma sameCore_set_audioRef x w : sameCore w (set_audioRef x w).
Proof. by repeat split. Qed.
Lemma sameCore_setIsPlaying x w : sameCore w (setIsPlaying x w).
Proof. by repeat split. Qed.
Lemma sameCore_newAudio url w : sameCore w (snd (newAudio url w)).
Proof. by repeat split. Qed.

Lemma sameCore_thrownAt cfg s w0 : sameCore w0 (thrownAt cfg s w0).
Proof.
  assert (H1 : sameCore w0 (set_audioRef (Some (length (audios w0)))
                              (snd (newAudio (soundUrl cfg) w0)))).
  { eapply sameCore_trans; [apply sameCore_newAudio | apply sameCore_set_audioRef]. }
  assert (H2 : sameCore w0
                 (updElement (length (audios w0)) (el_set_loop (loop cfg))
                    (updElement (length (audios w0)) (el_set_currentTime (startFrom cfg))
                       (set_audioRef (Some (length (audios w0)))
                          (snd (newAudio (soundUrl cfg) w0)))))).
  { eapply sameCore_trans; [exact H1|].
    eapply sameCore_trans; apply sameCore_updElement. }
  unfold thrownAt. destruct s; [apply sameCore_refl | exact H1 | exact H2 |].
  eapply sameCore_trans; [exact H2|].
  eapply sameCore_trans; [apply sameCore_setVolume|].
  eapply sameCore_trans; [apply sameCore_setIsPlaying | apply sameCore_updElement].
Qed.

Lemma sameCore_sessionPlaying cfg w0 : sameCore w0 (sessionPlaying cfg w0).
Proof.
  unfold sessionPlaying.
  eapply sameCore_trans; [apply sameCore_thrownAt | apply sameCore_hostPlay].
Qed.

Lemma hostPlay_isPlaying a w : isPlaying (hostPlay a w) = isPlaying w.
Proof. unfold hostPlay. by wsimpl. Qed.

Lemma sessionPlaying_isPlaying cfg w0 : isPlaying (sessionPlaying cfg w0) = true.
Proof.
  unfold sessionPlaying, thrownAt.
  by rewrite hostPlay_isPlaying, updElement_isPlaying.
Qed.

Lemma audios_log c w : audios (log c w) = audios w.
Proof. reflexivity. Qed.

(** The element a session starts on. *)
Definition sessionElement (cfg : Config) (w0 : World) : HTMLAudioElement :=
  mkAudio (soundUrl cfg) (startFrom cfg) (loop cfg)
          (if Qpositive (transitionStart cfg) then 0%Q else clamp01 (currentVolume w0))
          false false true.

Lemma sessionPlaying_lookup cfg w0 :
  audios (sessionPlaying cfg w0) !! length (audios w0) = Some (sessionElement cfg w0).
Proof.
  unfold sessionPlaying, thrownAt, hostPlay, setVolume.
  rewrite audios_log, updElement_lookup, decide_True by done.
  rewrite updElement_lookup, decide_True by done.
  rewrite setIsPlaying_audios, audios_log.
  rewrite !updElement_lookup, !decide_True by done.
  rewrite set_audioRef_audios. unfold newAudio. cbn [snd audios set_audios log].
  rewrite list_lookup_middle by done. reflexivity.
Qed.

(** ** Starting a session *)

Lemma sessionPlaying_facts cfg w0 :
  ∃ sp, sessionPlaying cfg w0 = sp
        ∧ audios sp !! length (audios w0) = Some (sessionElement cfg w0)
        ∧ audioRef sp = Some (length (audios w0))
        ∧ isPlaying sp = true
        ∧ length (audios sp) = S (length (audios w0))
        ∧ sameCore w0 sp.
Proof.
  exists (sessionPlaying cfg w0). split; [done|].
  split; [apply sessionPlaying_lookup|]. split; [apply sessionPlaying_audioRef|].
  split; [apply sessionPlaying_isPlaying|]. split; [apply sessionPlaying_length|].
  apply sameCore_sessionPlaying.
Qed.

Lemma startSession_no_fault cfg w0 :
  fadeIntervalRef w0 = None →
  let a := length (audios w0) in
  let w' := startSession cfg None w0 in
  audioRef w' = Some a
  ∧ isPlaying w' = true
  ∧ audios w' !! a = Some (sessionElement cfg w0)
  ∧ if Qpositive (transitionStart cfg)
    then Armed (nextTimer w0)
               (mkFade a 0 ((clamp01 (currentVolume w0) - 0) / inject_Z (Z.of_nat steps))
                       (clamp01 (currentVolume w0)) 0 NoCallback) w'
    else fadeIntervalRef w' = None ∧ timers w' = timers w0.
Proof.
  intros Fr. cbv zeta. unfold startSession.
  rewrite tryBody_no_fault, sessionBody_sessionPlaying.
  destruct (sessionPlaying_facts cfg w0) as (sp & -> & Hl & Hr & Hp & Hlen & HC).
  destruct HC as (Ht & Hn & Hf & _). rewrite Fr in Hf.
  unfold sessionElement in *.
  destruct (Qpositive (transitionStart cfg)) eqn:Ep.
  - assert (Hd : Qle_bool (transitionStart cfg) 0 = false).
    { unfold Qpositive in Ep. by destruct (Qle_bool _ _). }
    assert (Hv : getVolume (length (audios w0)) sp = 0%Q).
    { unfold getVolume. by rewrite Hl. }
    unfold applyFade. rewrite Hd, Hf, Hv. unfold Armed. wsimpl. cbn [fade_audio].
    rewrite Hn, lookup_insert_eq, Hlen, Hl.
    repeat split; try done. lia.
  - by repeat split.
Qed.

Lemma playSoundEffect_no_fault cfg w :
  isMountedRef w = true →
  audioRef (worldOf (playSoundEffect cfg None w)) = Some (length (audios w))
  ∧ isPlaying (worldOf (playSoundEffect cfg None w)) = true
  ∧ audios (worldOf (playSoundEffect cfg None w)) !! length (audios w)
    = Some (sessionElement cfg w)
  ∧ if Qpositive (transitionStart cfg)
    then Armed (nextTimer w)
               (mkFade (length (audios w)) 0
                       ((clamp01 (currentVolume w) - 0) / inject_Z (Z.of_nat steps))
                       (clamp01 (currentVolume w)) 0 NoCallback)
               (worldOf (playSoundEffect cfg None w))
    else fadeIntervalRef (worldOf (playSoundEffect cfg None w)) = None
         ∧ timers (worldOf (playSoundEffect cfg None w)) = timers (cleanup w).
Proof.
  intros Hm. rewrite playSoundEffect_mounted by done. cbn [worldOf].
  pose proof (startSession_no_fault cfg (cleanup w) (cleanup_fadeIntervalRef w)) as H.
  cbv zeta in H. unfold sessionElement in *.
  rewrite cleanup_length, cleanup_currentVolume, cleanup_nextTimer in H. exact H.
Qed.

(** [play()] on a mounted controller, with a cooperative host: the new
    element is the one [audioRef] holds, it is playing from [startFrom]
    with the configured [loop] flag and the listeners attached, and the
    playing flag is set.  Without a fade-in its volume is the clamped
    current volume and no fade timer exists; with a fade-in it starts at
    volume 0 and a fade towards the clamped current volume is armed. *)
Theorem play_starts_session cfg w :
  isMountedRef w = true →
  audioRef (worldOf (playSoundEffect cfg None w)) = Some (length (audios w))
  ∧ isPlaying (worldOf (playSoundEffect cfg None w)) = true
  ∧ audios (worldOf (playSoundEffect cfg None w)) !! length (audios w)
    = Some (sessionElement cfg w)
  ∧ if Qpositive (transitionStart cfg)
    then Armed (nextTimer w)
               (mkFade (length (audios w)) 0
                       ((clamp01 (currentVolume w) - 0) / inject_Z (Z.of_nat steps))
                       (clamp01 (currentVolume w)) 0 NoCallback)
               (worldOf (playSoundEffect cfg None w))
    else fadeIntervalRef (worldOf (playSoundEffect cfg None w)) = None
         ∧ timers (worldOf (playSoundEffect cfg None w)) = timers (cleanup w).
Proof. apply playSoundEffect_no_fault. Qed.

Lemma play_starts_session_witness :
  isMountedRef preloaded = true
  ∧ audioRef (worldOf (playSoundEffect (destructure "a.mp3" cropOptions) None preloaded))
    = Some 1
  ∧ isPlaying (worldOf (playSoundEffect (destructure "a.mp3" cropOptions) None preloaded))
    = true.
Proof.
  split; [reflexivity|].
  destruct (play_starts_session (destructure "a.mp3" cropOptions) preloaded)
    as (H1 & H2 & _).
  - reflexivity.
  - split; [exact H1 | exact H2].
Defined.

(** ** Position updates *)

Lemma getCurrentTime_updated a position w :
  hasListeners a w = true →
  getCurrentTime a (updElement a (el_set_currentTime position) w) = position.
Proof.
  unfold getCurrentTime, hasListeners. rewrite updElement_lookup, decide_True by done.
  by destruct (audios w !! a).
Qed.

Lemma hasListeners_lt a w : hasListeners a w = true → a < length (audios w).
Proof.
  unfold hasListeners. destruct (audios w !! a) eqn:E; [|done].
  intros _. by eapply lookup_lt_Some.
Qed.

Lemma Qle_bool_false x y : (x < y)%Q → Qle_bool y x = false.
Proof.
  intros H. destruct (Qle_bool y x) eqn:E; [|done].
  apply Qle_bool_iff in E. exfalso. by apply (Qlt_not_le x y).
Qed.

(** A position update inside the fade window [stopAt - transitionEnd,
    stopAt), with no fade running, starts the fade-out: a fade from the
    element's current volume to 0 over [transitionEnd] seconds whose
    completion pauses and tears down.  The session itself goes on. *)
Theorem timeupdate_starts_fade_out cfg a position w s :
  stopAt cfg = Some s → truthy (stopAt cfg) = true →
  hasListeners a w = true →
  (0 < transitionEnd cfg)%Q →
  (s - transitionEnd cfg <= position)%Q → (position < s)%Q →
  fadeIntervalRef w = None →
  let w' := step cfg (FireTimeUpdate a position) w in
  Armed (nextTimer w)
        (mkFade a (getVolume a w)
                ((0 - getVolume a w) / inject_Z (Z.of_nat steps)) 0 0 PauseAndCleanup) w'
  ∧ last (trace w')
    = Some (SetInterval (nextTimer w) (stepDuration (transitionEnd cfg)))
  ∧ audioRef w' = audioRef w
  ∧ ∀ b, isLive w' b = isLive w b.
Proof.
  intros Hs Ht Hl Hte Hlo Hhi Hf w'. subst w'. cbn [step]. rewrite Hl.
  unfold handleTimeUpdate. rewrite Hs in *. rewrite Ht. cbn [negb].
  rewrite getCurrentTime_updated by done.
  rewrite (Qle_bool_false _ _ Hhi).
  unfold Qpositive. rewrite (Qpositive_lt _ Hte).
  apply Qle_bool_iff in Hlo. rewrite Hlo.
  rewrite updElement_fadeIntervalRef, Hf.
  rewrite bool_decide_eq_false_2 by (by intros [? ?]). cbn [negb andb].
  set (w1 := updElement a (el_set_currentTime position) w).
  assert (L1 : a < length (audios w1))
    by (subst w1; rewrite updElement_length; by apply hasListeners_lt).
  destruct (applyFade_timed a 0 (transitionEnd cfg) PauseAndCleanup w1 Hte L1)
    as (HA & HL & _).
  assert (V1 : getVolume a w1 = getVolume a w) by (by apply getVolume_updElement).
  assert (N1 : nextTimer w1 = nextTimer w) by apply updElement_nextTimer.
  rewrite V1, N1 in HA. rewrite N1 in HL.
  split; [exact HA|]. split; [exact HL|]. split.
  - rewrite applyFade_timed_audioRef by (by apply Qpositive_lt).
    apply updElement_audioRef.
  - intros b. rewrite (isLive_same w1) by (apply applyFade_timed_audios; by apply Qpositive_lt).
    by apply isLive_updElement.
Qed.

Lemma timeupdate_starts_fade_out_witness :
  let cfg := destructure "a.mp3" cropOptions in
  let w := run cfg [CallPlay None] (worldOf (useSoundEffect "a.mp3" cropOptions None (1#2))) in
  fadeIntervalRef w = None
  ∧ fadeIntervalRef (step cfg (FireTimeUpdate 1 26) w) = Some 1
  ∧ audioRef (step cfg (FireTimeUpdate 1 26) w) = Some 1.
Proof.
  intros cfg w. split; [reflexivity|].
  destruct (timeupdate_starts_fade_out cfg 1 26 w 30) as ((_ & HA & _) & _ & Hr & _).
  - reflexivity.
  - reflexivity.
  - reflexivity.
  - reflexivity.
  - by vm_compute.
  - reflexivity.
  - reflexivity.
  - split; [exact HA|]. rewrite Hr. reflexivity.
Defined.

(** A position update only records the position when no [stopAt] is
    configured ([undefined] or 0), and, before [stopAt], when the fade
    window has not been reached, no fade-out is configured, or a fade (the
    fade-in included) is still running. *)
Theorem timeupdate_outside_window_is_inert cfg a position w :
  hasListeners a w = true →
  truthy (stopAt cfg) = false
  ∨ (∃ s, stopAt cfg = Some s ∧ (position < s)%Q
          ∧ ((transitionEnd cfg <= 0)%Q
             ∨ (position < s - transitionEnd cfg)%Q
             ∨ is_Some (fadeIntervalRef w))) →
  step cfg (FireTimeUpdate a position) w
  = updElement a (el_set_currentTime position) w.
Proof.
  intros Hl H. cbn [step]. rewrite Hl. unfold handleTimeUpdate.
  destruct H as [Ht|(s & Hs & Hhi & H)].
  - rewrite Ht. by destruct (stopAt cfg).
  - rewrite Hs. destruct (negb (truthy (Some s))); [done|].
    rewrite getCurrentTime_updated by done.
    rewrite (Qle_bool_false _ _ Hhi).
    destruct H as [H|[H|H]].
    + unfold Qpositive. apply Qle_bool_iff in H. by rewrite H.
    + rewrite (Qle_bool_false _ _ H). by rewrite andb_false_r.
    + rewrite updElement_fadeIntervalRef, bool_decide_eq_true_2 by done.
      by rewrite andb_false_r.
Qed.

Lemma timeupdate_outside_window_is_inert_witness :
  let cfg := destructure "a.mp3" cropOptions in
  let w := run cfg [CallPlay None] (worldOf (useSoundEffect "a.mp3" cropOptions None (1#2))) in
  hasListeners 1 w = true
  ∧ step cfg (FireTimeUpdate 1 20) w = updElement 1 (el_set_currentTime 20) w.
Proof.
  intros cfg w. split; [reflexivity|].
  apply (timeupdate_outside_window_is_inert cfg 1 20 w); [reflexivity|].
  right. exists 30%Q. split; [reflexivity|]. split; [reflexivity|].
  right. left. reflexivity.
Defined.

(** ** The end of a fade-out *)

Lemma fadeTick_final_teardown t f w :
  Armed t f w → steps ≤ S (fade_currentStep f) →
  fade_onComplete f = PauseAndCleanup →
  tornDown (fadeTick t w) ∧ isLive (fadeTick t w) (fade_audio f) = false.
Proof.
  intros (H1 & H2 & H3) Hk Hcb. unfold fadeTick. rewrite H1.
  rewrite (proj2 (Nat.leb_le _ _)) by lia. rewrite Hcb.
  set (w1 := set_timers _ w).
  assert (Hr : fadeIntervalRef (setVolume ByFade (fade_audio f) (fade_targetVolume f) w1)
               = Some t) by (subst w1; by wsimpl).
  rewrite Hr. set (w3 := set_fadeIntervalRef None _). clearbody w3.
  cbn [invokeOnComplete]. split; [apply cleanup_tornDown|].
  rewrite isLive_cleanup. unfold pause.
  rewrite (isLive_same (updElement (fade_audio f) (el_set_paused true)
                          (log (OnComplete (fade_audio f)) w3))) by done.
  rewrite isLive_paused, bool_decide_eq_true_2 by done.
  by rewrite andb_false_r.
Qed.

(** A fade-out that runs its remaining ticks to the end tears the session
    down: the element is paused at the target volume, the refs and the
    playing flag are cleared, the fade timer is disarmed, and the
    completion callback has run exactly once. *)
Theorem fade_out_completion_tears_down t f w n :
  Armed t f w →
  fade_onComplete f = PauseAndCleanup →
  0 < n → fade_currentStep f + n = steps →
  let w' := ticks n t w in
  tornDown w'
  ∧ isLive w' (fade_audio f) = false
  ∧ getVolume (fade_audio f) w' = fade_targetVolume f
  ∧ timers w' !! t = None
  ∧ onCompleteCount (trace w') = onCompleteCount (trace w) + 1.
Proof.
  intros HA Hcb Hn Hk w'. subst w'.
  pose proof (fadeRun_spec t (replicate n []) f w HA) as H.
  rewrite length_replicate in H. cbv zeta in H.
  destruct H as (_ & HV & _ & HF); [lia|].
  destruct HF as (HT & _ & HC); [done | done |].
  rewrite Hcb in HC. cbn [callbackCalls] in HC.
  assert (Hv : fadeValue f (fade_currentStep f + n) = fade_targetVolume f).
  { unfold fadeValue. by rewrite (proj2 (Nat.leb_le _ _)) by lia. }
  unfold ticks at 3 4 5. rewrite HV, Hv by done.
  split; [|split; [|by repeat split]].
  - replace n with ((n - 1) + 1) by lia. rewrite ticks_add.
    pose proof (fadeRun_spec t (replicate (n - 1) []) f w HA) as H'.
    rewrite length_replicate in H'. cbv zeta in H'.
    destruct H' as (_ & _ & HM & _); [lia|]. destruct HM as [HA' _]; [lia|].
    fold (ticks (n - 1) t w) in HA'.
    change (ticks 1 t (ticks (n - 1) t w)) with (fadeTick t (ticks (n - 1) t w)).
    by apply (fadeTick_final_teardown t _ _ HA'); [cbn [fade_currentStep fade_set_currentStep]; lia|].
  - replace n with ((n - 1) + 1) by lia. rewrite ticks_add.
    pose proof (fadeRun_spec t (replicate (n - 1) []) f w HA) as H'.
    rewrite length_replicate in H'. cbv zeta in H'.
    destruct H' as (_ & _ & HM & _); [lia|]. destruct HM as [HA' _]; [lia|].
    fold (ticks (n - 1) t w) in HA'.
    change (ticks 1 t (ticks (n - 1) t w)) with (fadeTick t (ticks (n - 1) t w)).
    by apply (fadeTick_final_teardown t _ _ HA'); [cbn [fade_currentStep fade_set_currentStep]; lia|].
Qed.

Lemma fade_out_completion_tears_down_witness :
  tornDown (ticks 50 1 fadingOut)
  ∧ getVolume 1 (ticks 50 1 fadingOut) = 0%Q
  ∧ isLive (ticks 50 1 fadingOut) 1 = false.
Proof.
  assert (HA : Armed 1 (mkFade 1 1 ((0 - 1) / inject_Z (Z.of_nat steps)) 0 0
                               PauseAndCleanup) fadingOut).
  { split; [by vm_compute|]. split; [by vm_compute|]. vm_compute. lia. }
  destruct (fade_out_completion_tears_down 1 _ fadingOut 50 HA)
    as (H1 & H2 & H3 & _).
  - reflexivity.
  - lia.
  - reflexivity.
  - split; [exact H1|]. split; [exact H3 | exact H2].
Defined.

(** ** The random schedule *)

(** When the pending random timeout fires on a mounted controller it
    plays, exactly as a manual [play()] would in the world without that
    timeout, and arms one new timeout whose delay is drawn afresh; the new
    handle is the one [intervalRef] holds. *)
Theorem random_timeout_plays_and_reschedules cfg t d r w :
  timers w !! t = Some (RandomTimeout d) →
  isMountedRef w = true →
  let w1 := set_timers (delete t (timers w)) w in
  let wp := worldOf (playSoundEffect cfg None w1) in
  let w' := step cfg (FireTimeout t None r) w in
  w' = scheduleNextPlay cfg r wp
  ∧ isPlaying w' = true
  ∧ audioRef w' = Some (length (audios w))
  ∧ intervalRef w' = Some (nextTimer wp)
  ∧ timers w' !! nextTimer wp = Some (RandomTimeout (randomDelay cfg r))
  ∧ last (trace w') = Some (SetTimeout (nextTimer wp) (randomDelay cfg r)).
Proof.
  intros Ht Hm w1 wp w'. subst w'. cbn [step]. unfold randomTimeoutFired.
  rewrite Ht. fold w1. change (isMountedRef w1) with (isMountedRef w). rewrite Hm.
  fold wp.
  destruct (playSoundEffect_no_fault cfg w1 Hm) as (Hr & Hp & _).
  fold wp in Hr, Hp. change (audios w1) with (audios w) in Hr.
  clearbody wp. split; [done|].
  unfold scheduleNextPlay. wsimpl. rewrite lookup_insert_eq, last_snoc.
  by repeat split.
Qed.

Lemma random_timeout_plays_and_reschedules_witness :
  let cfg := destructure "a.mp3" randomOptions in
  let w := worldOf (useSoundEffect "a.mp3" randomOptions None (1#2)) in
  timers w !! 1 = Some (RandomTimeout 10000)
  ∧ isPlaying (step cfg (FireTimeout 1 None (1#4)) w) = true
  ∧ intervalRef (step cfg (FireTimeout 1 None (1#4)) w) = Some 2.
Proof.
  intros cfg w. split; [reflexivity|].
  destruct (random_timeout_plays_and_reschedules cfg 1 10000 (1#4) w)
    as (_ & Hp & _ & Hi & _).
  - reflexivity.
  - reflexivity.
  - split; [exact Hp|]. rewrite Hi. reflexivity.
Defined.

(** ** Every armed timer is held by its ref *)

(** An armed fade interval is the one in [fadeIntervalRef], an armed
    random timeout the one in [intervalRef]. *)
Definition Owned (w : World) : Prop :=
  ∀ t tm, timers w !! t = Some tm →
    match tm with
    | FadeInterval _ => fadeIntervalRef w = Some t
    | RandomTimeout _ => intervalRef w = Some t
    end.

Definition NoRandom (w : World) : Prop :=
  ∀ t d, timers w !! t ≠ Some (RandomTimeout d).

Lemma Owned_frame w w' :
  Owned w → timers w' = timers w → fadeIntervalRef w' = fadeIntervalRef w →
  intervalRef w' = intervalRef w → Owned w'.
Proof. intros H E1 E2 E3 t tm. rewrite E1, E2, E3. apply H. Qed.

Lemma Owned_sameCore w w' : Owned w → sameCore w w' → Owned w'.
Proof. intros H (E1 & _ & E2 & E3 & _). by apply (Owned_frame w). Qed.

Lemma Owned_empty w : timers w = ∅ → Owned w.
Proof. intros E t tm. by rewrite E, lookup_empty. Qed.

Lemma NoRandom_subseteq w w' : NoRandom w → timers w' ⊆ timers w → NoRandom w'.
Proof.
  intros H Hs t d E. apply (H t d). by eapply lookup_weaken.
Qed.

Lemma disarm_lookup_Some ref (m : gmap nat Timer) t tm :
  disarm ref m !! t = Some tm → m !! t = Some tm ∧ ref ≠ Some t.
Proof.
  destruct ref as [t'|]; simpl; [|by split].
  intros [N E]%lookup_delete_Some. split; [done | congruence].
Qed.

Lemma disarm_subseteq ref (m : gmap nat Timer) : disarm ref m ⊆ m.
Proof. destruct ref; simpl; [apply delete_subseteq | done]. Qed.

Lemma cleanup_timers_subseteq w : timers (cleanup w) ⊆ timers w.
Proof.
  rewrite cleanup_timers. etrans; apply disarm_subseteq.
Qed.

(** In a world whose timers are owned, a teardown disarms them all. *)
Lemma cleanup_timers_empty w : Owned w → timers (cleanup w) = ∅.
Proof.
  intros H. apply map_empty. intros t. rewrite cleanup_timers.
  destruct (disarm _ _ !! t) as [tm|] eqn:E; [|done]. exfalso.
  apply disarm_lookup_Some in E as [E Nf]. apply disarm_lookup_Some in E as [E Ni].
  specialize (H t tm E). by destruct tm.
Qed.

Lemma cleanup_Owned w : Owned w → Owned (cleanup w).
Proof. intros H. by apply Owned_empty, cleanup_timers_empty. Qed.

Lemma invokeOnComplete_Owned cb a w : Owned w → Owned (invokeOnComplete cb a w).
Proof.
  intros H. destruct cb; cbn [invokeOnComplete]; [done|].
  apply cleanup_Owned. apply (Owned_sameCore w); [done|].
  eapply sameCore_trans; [apply sameCore_log | apply sameCore_pause].
Qed.

Lemma invokeOnComplete_subseteq cb a w : timers (invokeOnComplete cb a w) ⊆ timers w.
Proof.
  destruct cb; cbn [invokeOnComplete]; [done|].
  etrans; [apply cleanup_timers_subseteq|]. by wsimpl.
Qed.

Lemma applyFade_Owned a tgt d cb w : Owned w → Owned (applyFade a tgt d cb w).
Proof.
  intros H. unfold applyFade. destruct (Qle_bool d 0).
  - apply invokeOnComplete_Owned. apply (Owned_sameCore w); [done|].
    apply sameCore_setVolume.
  - set (f0 := mkFade _ _ _ _ _ _). clearbody f0.
    destruct (fadeIntervalRef w) as [t0|] eqn:Ef; intros t tm' E; wsimpl;
      apply lookup_insert_Some in E as [[<- <-]|[N E]].
    + done.
    + apply lookup_delete_Some in E as [N0 E]. specialize (H t tm' E).
      destruct tm'; [congruence | done].
    + done.
    + specialize (H t tm' E). destruct tm'; [congruence | done].
Qed.

Lemma applyFade_NoRandom a tgt d cb w : NoRandom w → NoRandom (applyFade a tgt d cb w).
Proof.
  intros H. unfold applyFade. destruct (Qle_bool d 0).
  - eapply NoRandom_subseteq; [exact H|].
    etrans; [apply invokeOnComplete_subseteq|]. by wsimpl.
  - destruct (fadeIntervalRef w) as [t0|] eqn:Ef; intros t d' E; wsimpl;
      apply lookup_insert_Some in E as [[_ ?]|[_ E]]; try done.
    + apply lookup_delete_Some in E as [_ E]. by apply (H t d').
    + by apply (H t d').
Qed.

Lemma fadeTick_Owned t w : Owned w → Owned (fadeTick t w).
Proof.
  intros H. unfold fadeTick. destruct (timers w !! t) as [[f|]|] eqn:E; try done.
  pose proof (H t _ E) as Hr. cbn in Hr.
  set (f' := fade_set_currentStep _ f). clearbody f'.
  destruct (steps <=? _)%nat.
  - apply invokeOnComplete_Owned. wsimpl. rewrite Hr.
    intros t' tm E'. wsimpl.
    apply lookup_delete_Some in E' as [N E'].
    apply lookup_insert_Some in E' as [[? _]|[_ E']]; [done|].
    specialize (H t' tm E'). destruct tm; [congruence | done].
  - intros t' tm E'. wsimpl.
    apply lookup_insert_Some in E' as [[<- <-]|[_ E']]; [done|].
    by apply (H t' tm).
Qed.

Lemma handleTimeUpdate_Owned cfg a w : Owned w → Owned (handleTimeUpdate cfg a w).
Proof.
  intros H. unfold handleTimeUpdate. destruct (stopAt cfg) as [s|]; [|done].
  destruct (negb _); [done|]. destruct (Qle_bool s _).
  - apply cleanup_Owned, (Owned_sameCore w); [done | apply sameCore_pause].
  - destruct (_ && _); [by apply applyFade_Owned | done].
Qed.

Lemma startSession_Owned cfg fault w0 : Owned w0 → Owned (startSession cfg fault w0).
Proof.
  intros H. unfold startSession. destruct fault as [s|].
  - rewrite tryBody_fault. apply cleanup_Owned.
    apply (Owned_sameCore w0); [done|].
    eapply sameCore_trans; [apply sameCore_thrownAt | apply sameCore_log].
  - rewrite tryBody_no_fault, sessionBody_sessionPlaying.
    assert (H4 : Owned (sessionPlaying cfg w0))
      by (apply (Owned_sameCore w0); [done | apply sameCore_sessionPlaying]).
    destruct (Qpositive _); [by apply applyFade_Owned | done].
Qed.

Lemma startSession_NoRandom cfg fault w0 :
  NoRandom w0 → NoRandom (startSession cfg fault w0).
Proof.
  intros H. unfold startSession. destruct fault as [s|].
  - rewrite tryBody_fault. eapply NoRandom_subseteq; [exact H|].
    etrans; [apply cleanup_timers_subseteq|]. cbn [timers log].
    by destruct (sameCore_thrownAt cfg s w0) as (-> & _).
  - rewrite tryBody_no_fault, sessionBody_sessionPlaying.
    assert (H4 : NoRandom (sessionPlaying cfg w0)).
    { eapply NoRandom_subseteq; [exact H|].
      by destruct (sameCore_sessionPlaying cfg w0) as (-> & _). }
    destruct (Qpositive _); [by apply applyFade_NoRandom | done].
Qed.

Lemma playSoundEffect_Owned cfg fault w :
  Owned w → Owned (worldOf (playSoundEffect cfg fault w)).
Proof.
  intros H. destruct (isMountedRef w) eqn:E.
  - rewrite playSoundEffect_mounted by done. by apply startSession_Owned, cleanup_Owned.
  - by rewrite playSoundEffect_unmounted.
Qed.

Lemma playSoundEffect_NoRandom cfg fault w :
  Owned w → isMountedRef w = true → NoRandom (worldOf (playSoundEffect cfg fault w)).
Proof.
  intros H E. rewrite playSoundEffect_mounted by done.
  apply startSession_NoRandom. intros t d. by rewrite cleanup_timers_empty, lookup_empty.
Qed.

Lemma applyFade_isMountedRef a tgt d cb w :
  isMountedRef (applyFade a tgt d cb w) = isMountedRef w.
Proof.
  unfold applyFade. destruct (Qle_bool d 0).
  - destruct cb; cbn [invokeOnComplete]; by wsimpl.
  - destruct (fadeIntervalRef w); by wsimpl.
Qed.

Lemma playSoundEffect_isMountedRef cfg fault w :
  isMountedRef (worldOf (playSoundEffect cfg fault w)) = isMountedRef w.
Proof.
  destruct (isMountedRef w) eqn:E; [|by rewrite playSoundEffect_unmounted].
  rewrite playSoundEffect_mounted by done. cbn [worldOf]. unfold startSession.
  destruct fault as [s|].
  - rewrite tryBody_fault, cleanup_isMountedRef. cbn [isMountedRef log].
    destruct (sameCore_thrownAt cfg s (cleanup w)) as (_ & _ & _ & _ & -> & _).
    by rewrite cleanup_isMountedRef.
  - rewrite tryBody_no_fault, sessionBody_sessionPlaying.
    destruct (sameCore_sessionPlaying cfg (cleanup w)) as (_ & _ & _ & _ & Hm & _).
    rewrite cleanup_isMountedRef, E in Hm.
    destruct (Qpositive _); [|done]. by rewrite applyFade_isMountedRef.
Qed.

Lemma scheduleNextPlay_Owned cfg r w :
  Owned w → NoRandom w → Owned (scheduleNextPlay cfg r w).
Proof.
  intros H HN t tm E. unfold scheduleNextPlay in *. wsimpl.
  apply lookup_insert_Some in E as [[<- <-]|[_ E]]; [done|].
  specialize (H t tm E). destruct tm; [done|]. by destruct (HN t delay).
Qed.

Lemma stopRandomPlayback_Owned w :
  Owned w → Owned (stopRandomPlayback w) ∧ NoRandom (stopRandomPlayback w).
Proof.
  intros H. unfold stopRandomPlayback. destruct (intervalRef w) as [t0|] eqn:Ei.
  - split.
    + intros t tm E. wsimpl. apply lookup_delete_Some in E as [N E].
      specialize (H t tm E). destruct tm; [done | congruence].
    + intros t d E. wsimpl. apply lookup_delete_Some in E as [N E].
      specialize (H t _ E). cbn in H. congruence.
  - split; [done|]. intros t d E. specialize (H t _ E). cbn in H. congruence.
Qed.

Lemma startRandomPlayback_Owned cfg r w : Owned w → Owned (startRandomPlayback cfg r w).
Proof.
  intros H. unfold startRandomPlayback. destruct (negb _); [done|].
  destruct (stopRandomPlayback_Owned w H) as [H1 H2]. by apply scheduleNextPlay_Owned.
Qed.

Lemma adjustVolume_Owned v w : Owned w → Owned (snd (adjustVolume v w)).
Proof.
  intros H. destruct (adjustVolume_frame v w) as (E1 & E2 & _). cbv zeta in E1, E2.
  apply (Owned_frame w); try done.
  unfold adjustVolume. cbn [snd]. destruct (audioRef _); by wsimpl.
Qed.

Lemma step_Owned cfg act w : Owned w → Owned (step cfg act w).
Proof.
  intros H. destruct act; cbn [step].
  - by apply playSoundEffect_Owned.
  - by apply cleanup_Owned.
  - by apply startRandomPlayback_Owned.
  - by apply stopRandomPlayback_Owned.
  - by apply adjustVolume_Owned.
  - destruct (hasListeners a w); [|done]. apply handleTimeUpdate_Owned.
    apply (Owned_sameCore w); [done | apply sameCore_updElement].
  - destruct (hasListeners a w); [|done]. unfold handleEnded.
    destruct (_ && _); [by apply cleanup_Owned | done].
  - destruct (hasListeners a w); [|done]. by apply cleanup_Owned, (Owned_frame w).
  - destruct (hasListeners a w); [|done]. by apply cleanup_Owned, (Owned_frame w).
  - by apply fadeTick_Owned.
  - unfold randomTimeoutFired. destruct (timers w !! t) as [[|]|] eqn:E; try done.
    set (w1 := set_timers _ w).
    assert (H1 : Owned w1).
    { intros t' tm E'. subst w1. wsimpl. apply lookup_delete_Some in E' as [_ E'].
      by apply (H t' tm). }
    assert (Em : isMountedRef w1 = isMountedRef w) by done.
    clearbody w1. destruct (isMountedRef w1) eqn:Em1; [|done].
    apply scheduleNextPlay_Owned; [by apply playSoundEffect_Owned|].
    by apply playSoundEffect_NoRandom.
  - unfold unmount. apply cleanup_Owned.
    destruct (stopRandomPlayback_Owned w H) as [H1 _].
    by apply (Owned_frame (stopRandomPlayback w)).
Qed.

Lemma run_Owned cfg acts w : Owned w → Owned (run cfg acts w).
Proof.
  revert w. induction acts as [|act acts IH]; intros w H; simpl; [done|].
  by apply IH, step_Owned.
Qed.

Lemma mountEffects_Owned cfg fault r :
  Owned (worldOf (mountEffects cfg fault r (initialWorld cfg))).
Proof.
  assert (H0 : Owned (preloadEffect cfg (initialWorld cfg))).
  { apply Owned_empty. unfold preloadEffect. destruct (_ && _); [|done]. by wsimpl. }
  assert (HR : ∀ w, Owned w → Owned (randomEffect cfg r w)).
  { intros w Hw. unfold randomEffect. destruct (playRandomly cfg);
      [by apply startRandomPlayback_Owned | by apply stopRandomPlayback_Owned]. }
  unfold mountEffects, bind, exec, autoplayEffect, ret.
  destruct (autoplay cfg); [|by apply HR].
  rewrite playSoundEffect_returns. by apply HR, playSoundEffect_Owned.
Qed.

(** In every world the controller can reach there is at most one armed
    timer of each kind, the fade interval in [fadeIntervalRef] and the
    random timeout in [intervalRef]; so a teardown, which disarms what the
    two refs hold, leaves no timer armed at all. *)
Theorem timers_are_owned url options fault r acts :
  let cfg := destructure url options in
  let w := run cfg acts (worldOf (useSoundEffect url options fault r)) in
  (∀ t f, timers w !! t = Some (FadeInterval f) → fadeIntervalRef w = Some t)
  ∧ (∀ t d, timers w !! t = Some (RandomTimeout d) → intervalRef w = Some t)
  ∧ timers (stopSoundEffect w) = ∅
  ∧ timers (handleError w) = ∅.
Proof.
  intros cfg w.
  assert (H : Owned w).
  { apply run_Owned. rewrite useSoundEffect_world. apply mountEffects_Owned. }
  split; [intros t f E; apply (H t _ E)|]. split; [intros t d E; apply (H t _ E)|].
  split; [by apply cleanup_timers_empty|].
  apply cleanup_timers_empty. by apply (Owned_frame w).
Qed.

(** ** Disposal *)

(** A position update in the fade window arms a fade whenever no fade is
    referenced, mounted or not. *)
Lemma late_timeupdate_arms_fade cfg a position w s :
  stopAt cfg = Some s → truthy (stopAt cfg) = true →
  hasListeners a w = true →
  (0 < transitionEnd cfg)%Q →
  (s - transitionEnd cfg <= position)%Q → (position < s)%Q →
  fadeIntervalRef w = None →
  Armed (nextTimer w)
        (mkFade a (getVolume a w)
                ((0 - getVolume a w) / inject_Z (Z.of_nat steps)) 0 0 PauseAndCleanup)
        (step cfg (FireTimeUpdate a position) w)
  ∧ isMountedRef (step cfg (FireTimeUpdate a position) w) = isMountedRef w.
Proof.
  intros Hs Ht Hl Hte Hlo Hhi Hf. cbn [step]. rewrite Hl.
  unfold handleTimeUpdate. rewrite Hs in *. rewrite Ht. cbn [negb].
  rewrite getCurrentTime_updated by done.
  rewrite (Qle_bool_false _ _ Hhi).
  unfold Qpositive. rewrite (Qpositive_lt _ Hte).
  apply Qle_bool_iff in Hlo. rewrite Hlo.
  rewrite updElement_fadeIntervalRef, Hf.
  rewrite bool_decide_eq_false_2 by (by intros [? ?]). cbn [negb andb].
  set (w1 := updElement a (el_set_currentTime position) w).
  assert (L1 : a < length (audios w1))
    by (subst w1; rewrite updElement_length; by apply hasListeners_lt).
  destruct (applyFade_timed a 0 (transitionEnd cfg) PauseAndCleanup w1 Hte L1)
    as (HA & _).
  assert (V1 : getVolume a w1 = getVolume a w) by (by apply getVolume_updElement).
  assert (N1 : nextTimer w1 = nextTimer w) by apply updElement_nextTimer.
  rewrite V1, N1 in HA. split; [exact HA|].
  rewrite applyFade_isMountedRef. apply updElement_isMountedRef.
Qed.

(** Disposal of a controller, in any world it can reach: afterwards no
    timer is armed, no handle is live and the refs and flags are cleared.
    The callbacks that test the mounted flag or need an armed timer then
    change nothing: [play()], [startRandom()], a fade tick, a random
    timeout.  The position-update listener is not among them: it tests
    neither the mounted flag nor the session, so a late 'timeupdate' from
    an element that still has its listeners, inside the fade window, arms
    a new fade interval on the disposed controller. *)
Theorem unmount_leaves_nothing_behind url options fault r acts :
  let cfg := destructure url options in
  let w := run cfg acts (worldOf (useSoundEffect url options fault r)) in
  let w' := step cfg Unmount w in
  timers w' = ∅
  ∧ tornDown w'
  ∧ liveHandles w' = []
  ∧ isMountedRef w' = false
  ∧ (∀ fault', step cfg (CallPlay fault') w' = w')
  ∧ (∀ r', step cfg (CallStartRandom r') w' = w')
  ∧ (∀ t, step cfg (FireInterval t) w' = w')
  ∧ (∀ t fault' r', step cfg (FireTimeout t fault' r') w' = w')
  ∧ ∀ a position s,
      stopAt cfg = Some s → truthy (stopAt cfg) = true →
      hasListeners a w' = true → (0 < transitionEnd cfg)%Q →
      (s - transitionEnd cfg <= position)%Q → (position < s)%Q →
      let w'' := step cfg (FireTimeUpdate a position) w' in
      isMountedRef w'' = false
      ∧ fadeIntervalRef w'' = Some (nextTimer w')
      ∧ ∃ f, timers w'' !! nextTimer w' = Some (FadeInterval f)
             ∧ fade_audio f = a ∧ fade_onComplete f = PauseAndCleanup.
Proof.
  intros cfg w w'.
  assert (HO : Owned w).
  { apply run_Owned. rewrite useSoundEffect_world. apply mountEffects_Owned. }
  assert (HI : Inv w) by apply run_Inv, useSoundEffect_Inv.
  subst w'. cbn [step]. unfold unmount.
  set (w1 := set_isMountedRef false (stopRandomPlayback w)).
  assert (O1 : Owned w1).
  { destruct (stopRandomPlayback_Owned w HO) as [H1 _].
    by apply (Owned_frame (stopRandomPlayback w)). }
  assert (I1 : Inv w1).
  { by apply (Inv_same (stopRandomPlayback w)); [apply stopRandomPlayback_Inv | |]. }
  assert (M1 : isMountedRef w1 = false) by done.
  clearbody w1.
  assert (T : timers (cleanup w1) = ∅) by (by apply cleanup_timers_empty).
  assert (M : isMountedRef (cleanup w1) = false) by (by rewrite cleanup_isMountedRef).
  split; [done|]. split; [apply cleanup_tornDown|].
  split; [by apply noLive_liveHandles, cleanup_noLive|]. split; [done|].
  split; [|split; [|split; [|split]]].
  - intros fault'. by rewrite playSoundEffect_unmounted.
  - intros r'. unfold startRandomPlayback. by rewrite M.
  - intros t. apply fadeTick_disarmed. by rewrite T, lookup_empty.
  - intros t fault' r'. unfold randomTimeoutFired. by rewrite T, lookup_empty.
  - intros a position s Hs Ht Hl Hte Hlo Hhi.
    destruct (late_timeupdate_arms_fade cfg a position (cleanup w1) s Hs Ht Hl Hte Hlo Hhi
                (cleanup_fadeIntervalRef w1)) as (HA & Hm).
    cbv zeta. cbn [step] in *. rewrite Hm, M. split; [done|].
    destruct HA as (HA1 & HA2 & _). split; [done|]. by eexists.
Qed.

(** A session that was played and disposed of: a 'timeupdate' the paused
    element still delivers re-arms a fade. *)
Lemma unmount_leaves_nothing_behind_witness :
  let cfg := destructure "a.mp3" cropOptions in
  let w := run cfg [CallPlay None]
             (worldOf (useSoundEffect "a.mp3" cropOptions None (1#2))) in
  let w' := step cfg Unmount w in
  timers w' = ∅ ∧ isMountedRef w' = false
  ∧ step cfg (CallPlay None) w' = w'
  ∧ fadeIntervalRef (step cfg (FireTimeUpdate 1 26) w') = Some (nextTimer w').
Proof.
  intros cfg w w'.
  pose proof (unmount_leaves_nothing_behind "a.mp3" cropOptions None (1#2)
                [CallPlay None]) as H.
  cbv zeta in H. fold cfg in H. fold w in H. fold w' in H.
  destruct H as (HT & _ & _ & HM & HP & _ & _ & _ & HU).
  split; [exact HT|]. split; [exact HM|]. split; [apply HP|].
  destruct (HU 1 26%Q 30%Q) as (_ & HF & _).
  - by vm_compute.
  - by vm_compute.
  - by vm_compute.
  - by vm_compute.
  - by vm_compute.
  - by vm_compute.
  - exact HF.
Defined.

(** ** stopRandom *)

(** [stopRandom()] touches nothing but the schedule: elements, the
    session handle, the fade ref, the playing flag and the volume stay as
    they were; and in every world the controller can reach, no random
    timeout is armed afterwards, so no scheduled play can fire until
    [startRandom()] is called again. *)
Theorem stopRandom_only_cancels_schedule url options fault r acts :
  let cfg := destructure url options in
  let w := run cfg acts (worldOf (useSoundEffect url options fault r)) in
  let w' := step cfg CallStopRandom w in
  audios w' = audios w ∧ audioRef w' = audioRef w
  ∧ fadeIntervalRef w' = fadeIntervalRef w ∧ isPlaying w' = isPlaying w
  ∧ currentVolume w' = currentVolume w
  ∧ intervalRef w' = None
  ∧ (∀ t d, timers w' !! t ≠ Some (RandomTimeout d))
  ∧ (∀ t fault' r', step cfg (FireTimeout t fault' r') w' = w').
Proof.
  intros cfg w w'.
  assert (HO : Owned w).
  { apply run_Owned. rewrite useSoundEffect_world. apply mountEffects_Owned. }
  destruct (stopRandomPlayback_Owned w HO) as [_ HN].
  subst w'. cbn [step] in *.
  assert (HF : audios (stopRandomPlayback w) = audios w
               ∧ audioRef (stopRandomPlayback w) = audioRef w
               ∧ fadeIntervalRef (stopRandomPlayback w) = fadeIntervalRef w
               ∧ isPlaying (stopRandomPlayback w) = isPlaying w
               ∧ currentVolume (stopRandomPlayback w) = currentVolume w
               ∧ intervalRef (stopRandomPlayback w) = None).
  { unfold stopRandomPlayback. by destruct (intervalRef w) eqn:E. }
  destruct HF as (? & ? & ? & ? & ? & ?). do 6 (split; [done|]).
  split; [exact HN|].
  intros t fault' r'. unfold randomTimeoutFired.
  destruct (timers (stopRandomPlayback w) !! t) as [[|d]|] eqn:E; try done.
  by destruct (HN t d).
Qed.

(** ** Element volumes stay in range *)

Definition VolOK (w : World) : Prop :=
  ∀ a el, audios w !! a = Some el → in01 (el_volume el).

Lemma VolOK_same w w' : VolOK w → audios w' = audios w → VolOK w'.
Proof. intros H E a el. rewrite E. apply H. Qed.

Lemma VolOK_updElement a f w :
  (∀ el, in01 (el_volume el) → in01 (el_volume (f el))) →
  VolOK w → VolOK (updElement a f w).
Proof.
  intros Hf H b el. rewrite updElement_lookup.
  destruct (decide (a = b)) as [->|N]; [|apply H].
  destruct (audios w !! b) as [el0|] eqn:E; [|done].
  intros [= <-]. apply Hf. by apply (H b).
Qed.

Lemma VolOK_pause a w : VolOK w → VolOK (pause a w).
Proof.
  intros H. apply (VolOK_same (updElement a (el_set_paused true) w)); [|done].
  by apply VolOK_updElement.
Qed.

Lemma VolOK_hostPlay a w : VolOK w → VolOK (hostPlay a w).
Proof.
  intros H. apply (VolOK_same (updElement a (el_set_paused false) w)); [|done].
  by apply VolOK_updElement.
Qed.

Lemma VolOK_setVolume by_ a v w : in01 v → VolOK w → VolOK (setVolume by_ a v w).
Proof.
  intros Hv H. apply (VolOK_same (updElement a (el_set_volume v) w)); [|done].
  by apply VolOK_updElement.
Qed.

Lemma in01_1 : in01 1.
Proof. by split. Qed.

Lemma VolOK_newAudio url w : VolOK w → VolOK (snd (newAudio url w)).
Proof.
  intros H a el E. unfold newAudio in E. cbn [snd audios log set_audios] in E.
  apply lookup_app_Some in E as [E|[_ E]]; [by apply (H a)|].
  apply list_lookup_singleton_Some in E as [_ <-]. apply in01_1.
Qed.

Lemma VolOK_cleanup w : VolOK w → VolOK (cleanup w).
Proof.
  intros H a el. rewrite cleanup_audios. destruct (audioRef w) as [b|]; [|apply H].
  by apply VolOK_updElement.
Qed.

Lemma VolOK_invokeOnComplete cb a w : VolOK w → VolOK (invokeOnComplete cb a w).
Proof.
  intros H. destruct cb; cbn [invokeOnComplete]; [done|].
  apply VolOK_cleanup, VolOK_pause. by apply (VolOK_same w).
Qed.

Lemma VolOK_applyFade a tgt d cb w :
  in01 tgt → VolOK w → VolOK (applyFade a tgt d cb w).
Proof.
  intros Ht H. destruct (Qle_bool d 0) eqn:E.
  - unfold applyFade. rewrite E. by apply VolOK_invokeOnComplete, VolOK_setVolume.
  - apply (VolOK_same w); [done | by apply applyFade_timed_audios].
Qed.

Lemma VolOK_fadeTick t w : TargetsOK (timers w) → VolOK w → VolOK (fadeTick t w).
Proof.
  intros HT H. unfold fadeTick. destruct (timers w !! t) as [[f|]|] eqn:E; try done.
  assert (Hf : in01 (fade_targetVolume f)) by (by apply (HT t)).
  set (w1 := set_timers _ w). assert (H1 : VolOK w1) by (by apply (VolOK_same w)).
  clearbody w1. destruct (steps <=? _)%nat.
  - apply VolOK_invokeOnComplete.
    assert (H2 : VolOK (setVolume ByFade (fade_audio f) (fade_targetVolume f) w1))
      by (by apply VolOK_setVolume).
    destruct (fadeIntervalRef _); [|done]. by eapply VolOK_same.
  - apply VolOK_setVolume; [apply tickVolume_in01 | done].
Qed.

Lemma VolOK_handleTimeUpdate cfg a w : VolOK w → VolOK (handleTimeUpdate cfg a w).
Proof.
  intros H. unfold handleTimeUpdate. destruct (stopAt cfg) as [s|]; [|done].
  destruct (negb _); [done|]. destruct (Qle_bool s _).
  - by apply VolOK_cleanup, VolOK_pause.
  - destruct (_ && _); [|done]. apply VolOK_applyFade; [apply in01_0 | done].
Qed.

Lemma sessionVolume_in01 cfg w0 :
  in01 (if Qpositive (transitionStart cfg) then 0%Q else clamp01 (currentVolume w0)).
Proof. destruct (Qpositive _); [apply in01_0 | apply clamp01_in01]. Qed.

Lemma VolOK_thrownAt cfg s w0 : VolOK w0 → VolOK (thrownAt cfg s w0).
Proof.
  intros H.
  assert (H1 : VolOK (set_audioRef (Some (length (audios w0)))
                        (snd (newAudio (soundUrl cfg) w0)))).
  { eapply VolOK_same; [apply (VolOK_newAudio (soundUrl cfg) _ H) | done]. }
  assert (H2 : VolOK
                 (updElement (length (audios w0)) (el_set_loop (loop cfg))
                    (updElement (length (audios w0)) (el_set_currentTime (startFrom cfg))
                       (set_audioRef (Some (length (audios w0)))
                          (snd (newAudio (soundUrl cfg) w0)))))).
  { apply VolOK_updElement; [done|]. by apply VolOK_updElement. }
  unfold thrownAt. destruct s; [done | done | done |].
  apply VolOK_updElement; [done|].
  eapply VolOK_same; [|apply setIsPlaying_audios].
  apply VolOK_setVolume; [apply sessionVolume_in01 | exact H2].
Qed.

Lemma VolOK_startSession cfg fault w0 : VolOK w0 → VolOK (startSession cfg fault w0).
Proof.
  intros H. unfold startSession. destruct fault as [s|].
  - rewrite tryBody_fault. apply VolOK_cleanup.
    eapply VolOK_same; [apply (VolOK_thrownAt cfg s _ H) | done].
  - rewrite tryBody_no_fault, sessionBody_sessionPlaying.
    assert (H4 : VolOK (sessionPlaying cfg w0))
      by (by apply VolOK_hostPlay, VolOK_thrownAt).
    destruct (Qpositive _); [|done].
    apply VolOK_applyFade; [apply clamp01_in01 | done].
Qed.

Lemma VolOK_playSoundEffect cfg fault w :
  VolOK w → VolOK (worldOf (playSoundEffect cfg fault w)).
Proof.
  intros H. destruct (isMountedRef w) eqn:E.
  - rewrite playSoundEffect_mounted by done. by apply VolOK_startSession, VolOK_cleanup.
  - by rewrite playSoundEffect_unmounted.
Qed.

Lemma VolOK_stopRandomPlayback w : VolOK w → VolOK (stopRandomPlayback w).
Proof.
  intros H. unfold stopRandomPlayback. destruct (intervalRef w); [|done].
  by apply (VolOK_same w).
Qed.

Lemma VolOK_startRandomPlayback cfg r w : VolOK w → VolOK (startRandomPlayback cfg r w).
Proof.
  intros H. unfold startRandomPlayback. destruct (negb _); [done|].
  destruct (intervalRef w); by apply (VolOK_same w).
Qed.

Lemma VolOK_adjustVolume v w : VolOK w → VolOK (snd (adjustVolume v w)).
Proof.
  intros H. unfold adjustVolume. cbn [snd].
  assert (H1 : VolOK (setCurrentVolume (clamp01 v) w)) by (by apply (VolOK_same w)).
  destruct (audioRef _); [|done].
  apply VolOK_setVolume; [apply clamp01_in01 | done].
Qed.

Lemma VolOK_step cfg act w : TargetsOK (timers w) → VolOK w → VolOK (step cfg act w).
Proof.
  intros HT H. destruct act; cbn [step].
  - by apply VolOK_playSoundEffect.
  - by apply VolOK_cleanup.
  - by apply VolOK_startRandomPlayback.
  - by apply VolOK_stopRandomPlayback.
  - by apply VolOK_adjustVolume.
  - destruct (hasListeners a w); [|done].
    by apply VolOK_handleTimeUpdate, VolOK_updElement.
  - destruct (hasListeners a w); [|done]. unfold handleEnded.
    destruct (_ && _); [by apply VolOK_cleanup | done].
  - destruct (hasListeners a w); [|done]. by apply VolOK_cleanup, (VolOK_same w).
  - destruct (hasListeners a w); [|done]. by apply VolOK_cleanup, (VolOK_same w).
  - by apply VolOK_fadeTick.
  - unfold randomTimeoutFired. destruct (timers w !! t) as [[|]|]; try done.
    set (w1 := set_timers _ w). assert (H1 : VolOK w1) by (by apply (VolOK_same w)).
    assert (Em : isMountedRef w1 = isMountedRef w) by done.
    clearbody w1. destruct (isMountedRef w1); [|done].
    eapply VolOK_same; [apply (VolOK_playSoundEffect cfg fault _ H1) | done].
  - unfold unmount. apply VolOK_cleanup.
    eapply VolOK_same; [apply (VolOK_stopRandomPlayback w H) | done].
Qed.

Lemma VolOK_run cfg acts w : FadeOK w → VolOK w → VolOK (run cfg acts w).
Proof.
  revert w. induction acts as [|act acts IH]; intros w HF H; simpl; [done|].
  apply IH; [by apply FadeOK_step | apply VolOK_step; [apply HF | done]].
Qed.

Lemma VolOK_mountEffects cfg fault r :
  VolOK (worldOf (mountEffects cfg fault r (initialWorld cfg))).
Proof.
  assert (Hi : VolOK (initialWorld cfg)) by (by intros a el E).
  assert (H0 : VolOK (preloadEffect cfg (initialWorld cfg))).
  { unfold preloadEffect. destruct (_ && _); [|done].
    eapply VolOK_same; [|apply set_audioRef_audios].
    apply VolOK_updElement; [done|].
    apply VolOK_setVolume; [apply clamp01_in01|]. by apply VolOK_newAudio. }
  assert (HR : ∀ w, VolOK w → VolOK (randomEffect cfg r w)).
  { intros w Hw. unfold randomEffect. destruct (playRandomly cfg);
      [by apply VolOK_startRandomPlayback | by apply VolOK_stopRandomPlayback]. }
  unfold mountEffects, bind, exec, autoplayEffect, ret.
  destruct (autoplay cfg); [|by apply HR].
  rewrite playSoundEffect_returns. by apply HR, VolOK_playSoundEffect.
Qed.

(** Whatever the options (an initial volume of 1.5 included) and whatever
    happens afterwards, no audio element ever holds a volume outside
    [0,1]: every write the hook makes is clamped or is a fade target that
    was clamped when the fade started. *)
Theorem element_volumes_in_range url options fault r acts a el :
  let cfg := destructure url options in
  let w := run cfg acts (worldOf (useSoundEffect url options fault r)) in
  audios w !! a = Some el →
  (0 <= el_volume el)%Q ∧ (el_volume el <= 1)%Q.
Proof.
  intros cfg w. apply VolOK_run.
  - rewrite useSoundEffect_world. apply FadeOK_mountEffects.
  - rewrite useSoundEffect_world. apply VolOK_mountEffects.
Qed.

Definition loudOptions : SoundEffectOptions :=
  mkOptions (Some (3 # 2)) None None None None None None None None (Some 1%Q) None.

Lemma element_volumes_in_range_witness :
  let cfg := destructure "a.mp3" loudOptions in
  let w := run cfg [CallPlay None; FireInterval 1; CallAdjustVolume 7]
             (worldOf (useSoundEffect "a.mp3" loudOptions None (1#2))) in
  currentVolume (worldOf (useSoundEffect "a.mp3" loudOptions None (1#2))) = (3 # 2)%Q
  ∧ ∃ el, audios w !! 1 = Some el ∧ (0 <= el_volume el)%Q ∧ (el_volume el <= 1)%Q.
Proof.
  intros cfg w. split; [reflexivity|].
  assert (E : ∃ el, audios w !! 1 = Some el) by (vm_compute; eauto).
  destruct E as [el E]. exists el. split; [exact E|].
  exact (element_volumes_in_range "a.mp3" loudOptions None (1#2)
           [CallPlay None; FireInterval 1; CallAdjustVolume 7] 1 el E).
Defined.

(** ** The playing flag *)

(** A live handle implies the playing flag. *)
Definition PlayingOK (w : World) : Prop :=
  ∀ b, isLive w b = true → isPlaying w = true.

Lemma noLive_PlayingOK w : noLive w → PlayingOK w.
Proof. intros H b Hb. by rewrite H in Hb. Qed.

Lemma PlayingOK_quiet w w' :
  PlayingOK w → (∀ b, isLive w' b = true → isLive w b = true) →
  isPlaying w' = isPlaying w → PlayingOK w'.
Proof. intros H Hq E b Hb. rewrite E. eauto. Qed.

Lemma PlayingOK_same w w' :
  PlayingOK w → audios w' = audios w → isPlaying w' = isPlaying w → PlayingOK w'.
Proof.
  intros H Ea Ep. apply (PlayingOK_quiet w); [done | | done].
  intros b. by rewrite (isLive_same w).
Qed.

Lemma cleanup_PlayingOK w : Inv w → PlayingOK (cleanup w).
Proof. intros H. by apply noLive_PlayingOK, cleanup_noLive. Qed.

Lemma setVolume_PlayingOK by_ a v w : PlayingOK w → PlayingOK (setVolume by_ a v w).
Proof.
  intros H. apply (PlayingOK_quiet w); [done | | by wsimpl].
  intros b. by rewrite setVolume_isLive.
Qed.

Lemma invokeOnComplete_PlayingOK cb a w :
  Inv w → PlayingOK w → PlayingOK (invokeOnComplete cb a w).
Proof.
  intros HI H. destruct cb; cbn [invokeOnComplete]; [done|].
  by apply cleanup_PlayingOK, pause_Inv, log_Inv.
Qed.

Lemma applyFade_timed_isPlaying a tgt d cb w :
  Qle_bool d 0 = false → isPlaying (applyFade a tgt d cb w) = isPlaying w.
Proof. unfold applyFade. intros ->. by destruct (fadeIntervalRef w). Qed.

Lemma applyFade_PlayingOK a tgt d cb w :
  Inv w → PlayingOK w → PlayingOK (applyFade a tgt d cb w).
Proof.
  intros HI H. destruct (Qle_bool d 0) eqn:E.
  - unfold applyFade. rewrite E.
    apply invokeOnComplete_PlayingOK; [by apply setVolume_Inv | by apply setVolume_PlayingOK].
  - apply (PlayingOK_same w); [done | by apply applyFade_timed_audios
                               | by apply applyFade_timed_isPlaying].
Qed.

Lemma fadeTick_PlayingOK t w : Inv w → PlayingOK w → PlayingOK (fadeTick t w).
Proof.
  intros HI H. unfold fadeTick. destruct (timers w !! t) as [[f|]|]; try done.
  set (w1 := set_timers _ w).
  assert (I1 : Inv w1) by (by apply (Inv_same w)).
  assert (H1 : PlayingOK w1) by (by apply (PlayingOK_same w)).
  clearbody w1. destruct (steps <=? _)%nat.
  - assert (I2 : Inv (setVolume ByFade (fade_audio f) (fade_targetVolume f) w1))
      by (by apply setVolume_Inv).
    assert (H2 : PlayingOK (setVolume ByFade (fade_audio f) (fade_targetVolume f) w1))
      by (by apply setVolume_PlayingOK).
    destruct (fadeIntervalRef _) as [t'|];
      [|by apply invokeOnComplete_PlayingOK].
    apply invokeOnComplete_PlayingOK.
    + eapply Inv_same; [exact I2 | done | done].
    + eapply PlayingOK_same; [exact H2 | done | done].
  - by apply setVolume_PlayingOK.
Qed.

Lemma handleTimeUpdate_PlayingOK cfg a w :
  Inv w → PlayingOK w → PlayingOK (handleTimeUpdate cfg a w).
Proof.
  intros HI H. unfold handleTimeUpdate. destruct (stopAt cfg) as [s|]; [|done].
  destruct (negb _); [done|]. destruct (Qle_bool s _).
  - by apply cleanup_PlayingOK, pause_Inv.
  - destruct (_ && _); [by apply applyFade_PlayingOK | done].
Qed.

Lemma startSession_PlayingOK cfg fault w0 :
  noLive w0 → PlayingOK (startSession cfg fault w0).
Proof.
  intros H0. unfold startSession. destruct fault as [s|].
  - rewrite tryBody_fault. apply cleanup_PlayingOK, log_Inv, noLive_Inv.
    intros b. by rewrite thrownAt_isLive.
  - rewrite tryBody_no_fault, sessionBody_sessionPlaying.
    assert (H4 : PlayingOK (sessionPlaying cfg w0))
      by (intros b _; apply sessionPlaying_isPlaying).
    destruct (Qpositive _); [|done].
    apply applyFade_PlayingOK; [by apply sessionPlaying_Inv | done].
Qed.

Lemma playSoundEffect_PlayingOK cfg fault w :
  Inv w → PlayingOK w → PlayingOK (worldOf (playSoundEffect cfg fault w)).
Proof.
  intros HI H. destruct (isMountedRef w) eqn:E.
  - rewrite playSoundEffect_mounted by done. by apply startSession_PlayingOK, cleanup_noLive.
  - by rewrite playSoundEffect_unmounted.
Qed.

Lemma step_PlayingOK cfg act w : Inv w → PlayingOK w → PlayingOK (step cfg act w).
Proof.
  intros HI H. destruct act; cbn [step].
  - by apply playSoundEffect_PlayingOK.
  - by apply cleanup_PlayingOK.
  - unfold startRandomPlayback. destruct (negb _); [done|].
    destruct (intervalRef w); by apply (PlayingOK_same w).
  - unfold stopRandomPlayback. destruct (intervalRef w); [|done].
    by apply (PlayingOK_same w).
  - unfold adjustVolume. cbn [snd].
    assert (H1 : PlayingOK (setCurrentVolume (clamp01 v) w)) by (by apply (PlayingOK_same w)).
    destruct (audioRef _); [by apply setVolume_PlayingOK | done].
  - destruct (hasListeners a w); [|done].
    apply handleTimeUpdate_PlayingOK; [by apply updElement_Inv|].
    apply (PlayingOK_quiet w); [done | | by wsimpl].
    intros b. by rewrite isLive_updElement.
  - destruct (hasListeners a w); [|done]. unfold handleEnded.
    destruct (_ && _); [by apply cleanup_PlayingOK | done].
  - destruct (hasListeners a w); [|done]. by apply cleanup_PlayingOK, log_Inv.
  - destruct (hasListeners a w); [|done]. by apply cleanup_PlayingOK, log_Inv.
  - by apply fadeTick_PlayingOK.
  - unfold randomTimeoutFired. destruct (timers w !! t) as [[|]|]; try done.
    set (w1 := set_timers _ w).
    assert (I1 : Inv w1) by (by apply (Inv_same w)).
    assert (H1 : PlayingOK w1) by (by apply (PlayingOK_same w)).
    clearbody w1. destruct (isMountedRef w1); [|done].
    eapply PlayingOK_same; [apply (playSoundEffect_PlayingOK cfg fault _ I1 H1) | done | done].
  - unfold unmount. apply cleanup_PlayingOK.
    eapply Inv_same; [apply (stopRandomPlayback_Inv w HI) | done | done].
Qed.

Lemma run_PlayingOK cfg acts w : Inv w → PlayingOK w → PlayingOK (run cfg acts w).
Proof.
  revert w. induction acts as [|act acts IH]; intros w HI H; simpl; [done|].
  apply IH; [by apply step_Inv | by apply step_PlayingOK].
Qed.

Lemma mountEffects_PlayingOK cfg fault r :
  PlayingOK (worldOf (mountEffects cfg fault r (initialWorld cfg))).
Proof.
  assert (I0 : Inv (preloadEffect cfg (initialWorld cfg))).
  { apply noLive_Inv. intros b. unfold preloadEffect.
    destruct (preload cfg); simpl; [|by destruct b].
    unfold isLive. simpl. by destruct b as [|[|b]]. }
  assert (H0 : PlayingOK (preloadEffect cfg (initialWorld cfg))).
  { apply noLive_PlayingOK. intros b. unfold preloadEffect.
    destruct (preload cfg); simpl; [|by destruct b].
    unfold isLive. simpl. by destruct b as [|[|b]]. }
  assert (HR : ∀ w, PlayingOK w → PlayingOK (randomEffect cfg r w)).
  { intros w Hw. unfold randomEffect, startRandomPlayback, stopRandomPlayback.
    destruct (playRandomly cfg); [destruct (negb _); [done|]|];
      destruct (intervalRef w); try done; by apply (PlayingOK_same w). }
  unfold mountEffects, bind, exec, autoplayEffect, ret.
  destruct (autoplay cfg); [|by apply HR].
  rewrite playSoundEffect_returns. by apply HR, playSoundEffect_PlayingOK.
Qed.

(** In every world the controller can reach, a cleared playing flag means
    silence: when [isPlaying] is false no audio element is playing. *)
Theorem not_playing_means_silent url options fault r acts :
  let cfg := destructure url options in
  let w := run cfg acts (worldOf (useSoundEffect url options fault r)) in
  isPlaying w = false → liveHandles w = [].
Proof.
  intros cfg w Hp. apply noLive_liveHandles. intros b.
  destruct (isLive w b) eqn:E; [|done].
  assert (H : PlayingOK w).
  { apply run_PlayingOK; [apply useSoundEffect_Inv|].
    rewrite useSoundEffect_world. apply mountEffects_PlayingOK. }
  apply H in E. congruence.
Qed.

Lemma not_playing_means_silent_witness :
  let cfg := destructure "a.mp3" cropOptions in
  let w := run cfg [CallPlay None; FireTimeUpdate 1 26; FireTimeUpdate 1 31]
             (worldOf (useSoundEffect "a.mp3" cropOptions None (1#2))) in
  isPlaying w = false ∧ liveHandles w = [].
Proof.
  intros cfg w. split; [reflexivity|].
  apply (not_playing_means_silent "a.mp3" cropOptions None (1#2)
           [CallPlay None; FireTimeUpdate 1 26; FireTimeUpdate 1 31]).
  reflexivity.
Defined.

(** ** startRandom *)

(** [startRandom()] on a mounted controller, whatever the [playRandomly]
    option says: the pending timeout, if any, is replaced; afterwards
    exactly one random timeout is armed, its handle is in [intervalRef] and
    its delay is the freshly drawn one.  Playback is not touched. *)
Theorem startRandom_arms_exactly_one_timeout url options fault r acts r' :
  let cfg := destructure url options in
  let w := run cfg acts (worldOf (useSoundEffect url options fault r)) in
  isMountedRef w = true →
  let w' := step cfg (CallStartRandom r') w in
  intervalRef w' = Some (nextTimer w)
  ∧ timers w' !! nextTimer w = Some (RandomTimeout (randomDelay cfg r'))
  ∧ (∀ t d, timers w' !! t = Some (RandomTimeout d) → t = nextTimer w)
  ∧ audios w' = audios w ∧ audioRef w' = audioRef w ∧ isPlaying w' = isPlaying w.
Proof.
  intros cfg w Hm w'.
  assert (HO : Owned w).
  { apply run_Owned. rewrite useSoundEffect_world. apply mountEffects_Owned. }
  destruct (stopRandomPlayback_Owned w HO) as [_ HN].
  assert (E : w' = scheduleNextPlay cfg r' (stopRandomPlayback w)).
  { subst w'. cbn [step]. unfold startRandomPlayback. by rewrite Hm. }
  assert (HF : nextTimer (stopRandomPlayback w) = nextTimer w
               ∧ audios (stopRandomPlayback w) = audios w
               ∧ audioRef (stopRandomPlayback w) = audioRef w
               ∧ isPlaying (stopRandomPlayback w) = isPlaying w).
  { unfold stopRandomPlayback. by destruct (intervalRef w). }
  destruct HF as (F1 & F2 & F3 & F4).
  rewrite E. clear E. clearbody w. set (w1 := stopRandomPlayback w) in *. clearbody w1.
  unfold scheduleNextPlay. wsimpl. rewrite F1, lookup_insert_eq.
  do 2 (split; [done|]). split; [|done].
  intros t d Ht. apply lookup_insert_Some in Ht as [[<- _]|[_ Ht]]; [done|].
  by destruct (HN t d).
Qed.

Lemma startRandom_arms_exactly_one_timeout_witness :
  let cfg := destructure "a.mp3" randomOptions in
  let w := run cfg [] (worldOf (useSoundEffect "a.mp3" randomOptions None (1#2))) in
  isMountedRef w = true
  ∧ timers w !! 1 = Some (RandomTimeout 10000)
  ∧ intervalRef (step cfg (CallStartRandom (1#4)) w) = Some 2
  ∧ timers (step cfg (CallStartRandom (1#4)) w) !! 1 = None.
Proof.
  intros cfg w. split; [reflexivity|]. split; [reflexivity|].
  destruct (startRandom_arms_exactly_one_timeout "a.mp3" randomOptions None (1#2) []
              (1#4)) as (Hi & _ & Hu & _); [reflexivity|].
  split; [exact Hi|].
  destruct (timers (step cfg (CallStartRandom (1#4)) w) !! 1) as [[f|d]|] eqn:E;
    [by vm_compute in E | | done].
  apply Hu in E. by vm_compute in E.
Defined.

(** ** Errors from a superseded session *)

(** Unlike the 'ended' listener, the 'error' listener and the rejection
    handler of [audio.play()] do not check which element they belong to:
    when they run for an element of an earlier session they tear down
    whatever session is current. *)
Theorem late_error_tears_down_current_session cfg a w :
  hasListeners a w = true →
  step cfg (FireError a) w = cleanup (log ConsoleError w)
  ∧ step cfg (RejectPlay a) w = cleanup (log ConsoleError w)
  ∧ tornDown (step cfg (RejectPlay a) w)
  ∧ match audioRef w with
    | Some b => isLive (step cfg (RejectPlay a) w) b = false
                ∧ isLive (step cfg (FireError a) w) b = false
    | None => True
    end.
Proof.
  intros Hl. cbn [step]. rewrite Hl. unfold handleError, handlePlayRejected.
  split; [done|]. split; [done|]. split; [apply cleanup_tornDown|].
  destruct (audioRef w) as [b|] eqn:E; [|done].
  rewrite isLive_cleanup. cbn [audioRef log].
  rewrite E, bool_decide_eq_true_2 by done. by rewrite andb_false_r.
Qed.

Lemma late_error_tears_down_current_session_witness :
  let cfg := destructure "a.mp3" cropOptions in
  let w := run cfg [CallPlay None; CallPlay None]
             (worldOf (useSoundEffect "a.mp3" cropOptions None (1#2))) in
  hasListeners 1 w = true ∧ audioRef w = Some 2 ∧ isLive w 2 = true
  ∧ isLive (step cfg (RejectPlay 1) w) 2 = false
  ∧ isPlaying (step cfg (RejectPlay 1) w) = false.
Proof.
  intros cfg w. split; [reflexivity|]. split; [reflexivity|]. split; [reflexivity|].
  destruct (late_error_tears_down_current_session cfg 1 w) as (_ & _ & Ht & Hb);
    [reflexivity|].
  change (audioRef w) with (Some 2) in Hb. split; [apply Hb | apply Ht].
Defined.

(** ** Construction *)

Lemma mountEffects_no_autoplay cfg fault r :
  autoplay cfg = false →
  worldOf (mountEffects cfg fault r (initialWorld cfg))
  = randomEffect cfg r (preloadEffect cfg (initialWorld cfg)).
Proof.
  intros E. unfold mountEffects, bind, exec, autoplayEffect, ret. by rewrite E.
Qed.

(** Construction without [autoplay] starts nothing: the playing flag is
    clear and no handle is live.  With [preload] there is one paused
    element at the clamped initial volume, without it there is none; the
    [currentVolume] state is the option as given, unclamped; and a timer
    exists only when [playRandomly] asked for the first random timeout. *)
Theorem construction_without_autoplay url options fault r :
  default false (opt_autoplay options) = false →
  let cfg := destructure url options in
  let w := worldOf (useSoundEffect url options fault r) in
  isPlaying w = false
  ∧ liveHandles w = []
  ∧ currentVolume w = default 1%Q (opt_volume options)
  ∧ audios w = (if preload cfg
                then [mkAudio url 0 false (clamp01 (initialVolume cfg)) true true false]
                else [])
  ∧ timers w = (if playRandomly cfg
                then {[ 1 := RandomTimeout (randomDelay cfg r) ]}
                else ∅).
Proof.
  intros Ha cfg w. subst w. rewrite useSoundEffect_world. fold cfg.
  rewrite mountEffects_no_autoplay by exact Ha.
  assert (Hcfg : soundUrl cfg = url ∧ initialVolume cfg = default 1%Q (opt_volume options))
    by done.
  destruct Hcfg as [Hu Hv]. rewrite <- Hu, <- Hv. clearbody cfg.
  unfold randomEffect, preloadEffect, startRandomPlayback, stopRandomPlayback,
    scheduleNextPlay, liveHandles.
  destruct (preload cfg), (playRandomly cfg); cbn; rewrite ?insert_empty; done.
Qed.

Lemma construction_without_autoplay_witness :
  isPlaying (worldOf (useSoundEffect "a.mp3" loudOptions None (1#2))) = false
  ∧ currentVolume (worldOf (useSoundEffect "a.mp3" loudOptions None (1#2))) = (3 # 2)%Q
  ∧ getVolume 0 (worldOf (useSoundEffect "a.mp3" loudOptions None (1#2))) = 1%Q.
Proof.
  destruct (construction_without_autoplay "a.mp3" loudOptions None (1#2))
    as (Hp & _ & Hv & Ha & _); [reflexivity|].
  split; [exact Hp|]. split; [exact Hv|].
  unfold getVolume. rewrite Ha. reflexivity.
Defined.
